(** * rbxts-command: argument resolution, token buffers and dispatch

    A shallow embedding of [src/args/ArgumentDescriptor.ts],
    [src/args/ArgumentParser.ts] and [src/Commander.ts], with the properties
    of the resolution engine, of the imperative token-buffer operations and
    of the dispatch boundary.

    Arrays of strings are objects that several owners can hold, so they live
    in a store and are named by a location.  The [Option] cells that a
    resolution fills are allocated by that resolution and handed back to the
    caller, so they are kept as a list of cell contents.  Every call of a
    value parser, every [set] on a cell and every [parseFrom] frame is
    written to an event log, which is what the statements about "tried",
    "invoked", "consumed" and "depth" are about. *)

From Equations Require Import Equations.
From stdpp Require Import gmap strings list.

Set Default Proof Using "Type".

(** ** The store of string arrays *)

(** Locations of string arrays. *)
Abbreviation loc := nat.

(** The arrays allocated so far; an array is named by its position. *)
Abbreviation Store := (list (list string)).

(** Computations that read and update the store. *)
Definition M (A : Type) : Type := Store → A * Store.

Definition ret {A} (a : A) : M A := fun σ => (a, σ).

Definition bind {A B} (m : M A) (k : A → M B) : M B :=
  fun σ => let '(a, σ') := m σ in k a σ'.

Notation "'let*' x := m 'in' k" := (bind m (fun x => k))
  (at level 10, x name, m at level 100, k at level 200, only parsing).

(** The contents of the array at [l]. *)
Definition deref (σ : Store) (l : loc) : list string := default [] (σ !! l).

(** A new array with contents [a]: [[...a]] or an array literal. *)
Definition alloc (a : list string) : M loc := fun σ => (length σ, σ ++ [a]).

(** [array[i]]. *)
Definition Array_get (l : loc) (i : nat) : M (option string) :=
  fun σ => (deref σ l !! i, σ).

(** [array.shift()]: removes the first element and returns it. *)
Definition Array_shift (l : loc) : M (option string) :=
  fun σ => (head (deref σ l), <[l := tail (deref σ l)]> σ).

(** [array.pop()]: removes the last element and returns it. *)
Definition Array_pop (l : loc) : M (option string) :=
  fun σ => (last (deref σ l), <[l := removelast (deref σ l)]> σ).

(** [array.remove(i)]: removes the element at [i], shifting the rest. *)
Definition Array_remove (l : loc) (i : nat) : M (option string) :=
  fun σ => (deref σ l !! i, <[l := delete i (deref σ l)]> σ).

(** [[...array]]: a new array with the same elements. *)
Definition Array_spread (l : loc) : M loc :=
  fun σ => alloc (deref σ l) σ.

(** [array.isEmpty()]. *)
Definition Array_isEmpty (l : loc) : M bool :=
  fun σ => (bool_decide (deref σ l = []), σ).

(** [array.join(separator)]. *)
Definition Array_join (l : loc) (separator : string) : M string :=
  fun σ => (String.concat separator (deref σ l), σ).

(** [array.size()]. *)
Definition Array_size (l : loc) : M nat :=
  fun σ => (length (deref σ l), σ).

(** ** Values, parsers, cells *)

Section Resolution.

(** The values that value parsers produce ([defined] in the source). *)
Context {V : Type}.

(** [ArgumentValueParser<T>]: [parse(value: string): T | undefined]. *)
Record ArgumentValueParser : Type := { parse : string → option V }.

(** Modelled from the spec: the [Option] cell of the external package
    @rbxts/zycore (the spec's OptionalSlot), which is not part of this
    repository.  A cell holds a value or nothing; it starts empty, [set]
    stores what it is given and [isSome] says whether a value is held. *)
Record Option : Type := mkOption { value : option V }.

(** [Option.none()] and [Option.some(v)]. *)
Definition Option_none : Option := {| value := None |}.
Definition Option_some (v : V) : Option := {| value := Some v |}.

Definition Option_set (v : option V) (opt : Option) : Option := {| value := v |}.

Definition isSome (opt : Option) : bool :=
  match value opt with Some _ => true | None => false end.

(** [Option.nones(n)]: [n] fresh empty cells. *)
Definition nones (n : nat) : list Option := replicate n Option_none.

(** ** The event log *)

Inductive event : Type :=
  | ECall (stepIndex argumentIndex : nat)
      (* a frame of [parseFrom] is entered *)
  | EParse (owner index : nat) (value : string)
      (* [parser.parse(value)], parser number [index] of step [owner] *)
  | ESet (slot : nat) (v : option V).
      (* [set(v)] on the cell of slot [slot] *)

Definition is_call (e : event) : bool :=
  match e with ECall _ _ => true | _ => false end.

Definition is_parse (e : event) : bool :=
  match e with EParse _ _ _ => true | _ => false end.

Definition is_set_on (slot : nat) (e : event) : bool :=
  match e with ESet s _ => bool_decide (s = slot) | _ => false end.

Definition is_fill_on (slot : nat) (e : event) : bool :=
  match e with ESet s (Some _) => bool_decide (s = slot) | _ => false end.

Definition is_parse_on (owner : nat) (e : event) : bool :=
  match e with EParse o _ _ => bool_decide (o = owner) | _ => false end.

(** Number of events of a log that satisfy [p]. *)
Definition count (p : event → bool) (log : list event) : nat :=
  length (List.filter p log).

(** ** ArgumentDescriptor *)

(** [interface ParseStep]. *)
Record ParseStep : Type := mkStep {
  parsers : list ArgumentValueParser;
  required : bool
}.

(** [type Parsers]: one parser or an array of parsers. *)
Inductive Parsers : Type :=
  | Single (parser : ArgumentValueParser)
  | Several (ps : list ArgumentValueParser).

Record ArgumentDescriptor : Type := mkDescriptor {
  steps : list ParseStep;
  defaultArgs : loc
}.

(** [resolveParsers]: [Arrays.is(parsers) ? parsers : [parsers]]. *)
Definition resolveParsers (ps : Parsers) : list ArgumentValueParser :=
  match ps with
  | Single parser => [parser]
  | Several l => l
  end.

(** [this.steps.push(step)].  The source pushes onto the descriptor and
    returns [this]; here the descriptor with the step added is the result. *)
Definition push (this : ArgumentDescriptor) (step : ParseStep) : ArgumentDescriptor :=
  {| steps := steps this ++ [step]; defaultArgs := defaultArgs this |}.

(** [then(parsers, required = false)]. *)
Definition then_ (this : ArgumentDescriptor) (ps : Parsers) (req : bool) : ArgumentDescriptor :=
  push this {| parsers := resolveParsers ps; required := req |}.

(** [thenIf(condition, parsers, required = false)]. *)
Definition thenIf (this : ArgumentDescriptor) (condition : bool) (ps : Parsers)
    (req : bool) : ArgumentDescriptor :=
  if condition then push this {| parsers := resolveParsers ps; required := req |}
  else push this {| parsers := []; required := false |}.

(** The loop of [parseFrom] over the parsers of one step, on the cell [opt]
    of that step:
    [for (const parser of parsers) { opt.set(parser.parse(value));
       if (opt.isSome()) return ...; }].
    The boolean says whether the loop was left through the [return]. *)
Fixpoint tryParsers (stepIndex index : nat) (value : string)
    (ps : list ArgumentValueParser) (opt : Option) : bool * Option * list event :=
  match ps with
  | [] => (false, opt, [])
  | parser :: rest =>
      let result := parse parser value in
      let opt' := Option_set result opt in
      let evs := [EParse stepIndex index value; ESet stepIndex result] in
      if isSome opt' then (true, opt', evs)
      else
        let '(matched, opt'', evs') := tryParsers stepIndex (S index) value rest opt' in
        (matched, opt'', evs ++ evs')
  end.

(** Events that happened before a nested call are kept in front of the
    events of that call. *)
Definition after (evs : list event) (r : list Option * list event)
    : list Option * list event :=
  (r.1, evs ++ r.2).

(** [parseFrom(args, stepIndex, argumentIndex, options)].  The result is the
    [options] array together with the events of this frame and of the frames
    under it. *)
Equations? parseFrom (this : ArgumentDescriptor) (args : list string)
    (stepIndex argumentIndex : nat) (options : list Option)
    : list Option * list event
    by wf (length (steps this) - stepIndex) lt :=
  parseFrom this args stepIndex argumentIndex options
    with Logic.inspect (steps this !! stepIndex) := {
    | exist _ None _ => (options, [ECall stepIndex argumentIndex])
    | exist _ (Some step) Hstep =>
        match args !! argumentIndex, options !! stepIndex with
        | Some value, Some opt =>
            let '(matched, opt', evs) :=
              tryParsers stepIndex 0 value (parsers step) opt in
            let options' := <[stepIndex := opt']> options in
            if matched then
              after (ECall stepIndex argumentIndex :: evs)
                (parseFrom this args (S stepIndex) (S argumentIndex) options')
            else if required step then
              (options', ECall stepIndex argumentIndex :: evs)
            else
              after (ECall stepIndex argumentIndex :: evs)
                (parseFrom this args (S stepIndex) argumentIndex options')
        | _, _ => (options, [ECall stepIndex argumentIndex])
        end }.
Proof.
  all: apply lookup_lt_Some in Hstep; lia.
Qed.

(** Number of parsers of the step at [stepIndex], if there is one. *)
Definition parsersAt (this : ArgumentDescriptor) (stepIndex : nat) : nat :=
  match steps this !! stepIndex with
  | Some step => length (parsers step)
  | None => 0
  end.

(** Frames of [parseFrom] under the first one: the depth of the recursion. *)
Definition depth (log : list event) : nat := count is_call log - 1.

(** [compile(args)] on the contents of the array it is given. *)
Definition compile (this : ArgumentDescriptor) (args : list string)
    : list Option * list event :=
  let results := nones (length (steps this)) in
  parseFrom this args 0 0 results.

(** [new ArgumentDescriptor(defaultArgs = [])]: the array it is given is
    kept as it is, by reference; without one a new empty array is made. *)
Definition newArgumentDescriptor (defaultArgs : option loc) : M ArgumentDescriptor :=
  match defaultArgs with
  | Some l => ret {| steps := []; defaultArgs := l |}
  | None => let* l := alloc [] in ret {| steps := []; defaultArgs := l |}
  end.

(** The token sequence that [compile()] uses when it is called without an
    argument: what the array [this.defaultArgs] holds at that moment. *)
Definition defaultTokens (this : ArgumentDescriptor) (σ : Store) : list string :=
  deref σ (defaultArgs this).

(** [compile(args = this.defaultArgs)] on an array of the store. *)
Definition compileIn (this : ArgumentDescriptor) (args : option loc)
    : M (list Option * list event) :=
  fun σ => (compile this (deref σ (default (defaultArgs this) args)), σ).

End Resolution.

Arguments ArgumentValueParser : clear implicits.
Arguments Option : clear implicits.
Arguments mkOption {V} value.
Arguments event : clear implicits.
Arguments ParseStep : clear implicits.
Arguments Parsers : clear implicits.
Arguments ArgumentDescriptor : clear implicits.

(** ** ArgumentParser *)

Module ArgumentParser.

(** An [ArgumentParser] holds its array [args]. *)
Record t : Type := { args : loc }.

(** [new ArgumentParser(args)]: the field starts as a new empty array; a
    given, non-empty array is spread into a new array. *)
Definition new (input : option loc) : M t :=
  let* l0 := alloc [] in
  match input with
  | None => ret {| args := l0 |}
  | Some a =>
      let* empty := Array_isEmpty a in
      if empty then ret {| args := l0 |}
      else
        let* l := Array_spread a in
        ret {| args := l |}
  end.

Section Methods.

Context {V : Type}.

(** The loop of the private [parse]:
    [for (const parser of parsers) { const result = parser.parse(value);
       if (result !== undefined) return result; }]. *)
Fixpoint parse_loop (index : nat) (value : string)
    (ps : list (ArgumentValueParser V)) : option V * list (event V) :=
  match ps with
  | [] => (None, [])
  | parser :: rest =>
      match parse parser value with
      | Some result => (Some result, [EParse 0 index value])
      | None =>
          let '(r, evs) := parse_loop (S index) value rest in
          (r, EParse 0 index value :: evs)
      end
  end.

(** The loop of the private [parseAny], from index [i] on:
    [for (let i = 0; i < parsers.size(); i++) { ...
       const result = parser.parse(value);
       if (result !== undefined) option.set(result);
       if (option.isSome()) break; }]. *)
Fixpoint parseAny_loop (i : nat) (value : string)
    (ps : list (ArgumentValueParser V)) (results : list (Option V))
    : list (Option V) * list (event V) :=
  match ps with
  | [] => (results, [])
  | parser :: rest =>
      let result := parse parser value in
      let '(results', evs) :=
        match result with
        | Some _ =>
            (alter (Option_set result) i results,
             [EParse 0 i value; ESet i result])
        | None => (results, [EParse 0 i value])
        end in
      if isSome (default Option_none (results' !! i)) then (results', evs)
      else after evs (parseAny_loop (S i) value rest results')
  end.

(** The private [parse(value, ...parsers)]: first-match mode. *)
Definition parse (value : option string) (ps : list (ArgumentValueParser V))
    : option V * list (event V) :=
  match value with
  | None => (None, [])
  | Some v => parse_loop 0 v ps
  end.

(** The private [parseAny(value, ...parsers)]: collect-all mode. *)
Definition parseAny (value : option string) (ps : list (ArgumentValueParser V))
    : list (Option V) * list (event V) :=
  let results := nones (length ps) in
  match value with
  | None => (results, [])
  | Some v => parseAny_loop 0 v ps results
  end.

(** [get(index, ...parsers)]. *)
Definition get (this : t) (index : nat) (ps : list (ArgumentValueParser V))
    : M (option V * list (event V)) :=
  let* value := Array_get (args this) index in
  ret (parse value ps).

(** [getAny(index, ...parsers)]. *)
Definition getAny (this : t) (index : nat) (ps : list (ArgumentValueParser V))
    : M (list (Option V) * list (event V)) :=
  let* value := Array_get (args this) index in
  ret (parseAny value ps).

(** [shift(...parsers)]. *)
Definition shift (this : t) (ps : list (ArgumentValueParser V))
    : M (option V * list (event V)) :=
  let* value := Array_shift (args this) in
  ret (parse value ps).

(** [shiftAny(...parsers)]. *)
Definition shiftAny (this : t) (ps : list (ArgumentValueParser V))
    : M (list (Option V) * list (event V)) :=
  let* value := Array_shift (args this) in
  ret (parseAny value ps).

(** [shiftIf(...parsers)]. *)
Definition shiftIf (this : t) (ps : list (ArgumentValueParser V))
    : M (option V * list (event V)) :=
  let* value := Array_get (args this) 0 in
  let result := parse value ps in
  if bool_decide (is_Some result.1) then
    let* _ := Array_remove (args this) 0 in
    ret result
  else ret result.

(** [shiftIfAny(...parsers)]. *)
Definition shiftIfAny (this : t) (ps : list (ArgumentValueParser V))
    : M (list (Option V) * list (event V)) :=
  let* value := Array_get (args this) 0 in
  let result := parseAny value ps in
  if existsb isSome result.1 then
    let* _ := Array_remove (args this) 0 in
    ret result
  else ret result.

(** [pop(...parsers)]. *)
Definition pop (this : t) (ps : list (ArgumentValueParser V))
    : M (option V * list (event V)) :=
  let* value := Array_pop (args this) in
  ret (parse value ps).

(** [popAny(...parsers)]. *)
Definition popAny (this : t) (ps : list (ArgumentValueParser V))
    : M (list (Option V) * list (event V)) :=
  let* value := Array_pop (args this) in
  ret (parseAny value ps).

(** [join(parsers, separator = '')], with its single parser. *)
Definition join (this : t) (parser : ArgumentValueParser V) (separator : string)
    : M (option V * list (event V)) :=
  let* value := Array_join (args this) separator in
  ret (parse (Some value) [parser]).

(** [joinAny(parsers, seperator = '')]. *)
Definition joinAny (this : t) (ps : list (ArgumentValueParser V)) (seperator : string)
    : M (list (Option V) * list (event V)) :=
  let* value := Array_join (args this) seperator in
  ret (parseAny (Some value) ps).

(** [describe()]: [new ArgumentDescriptor(this.args)]. *)
Definition describe (this : t) : M (ArgumentDescriptor V) :=
  newArgumentDescriptor (Some (args this)).

End Methods.

(** [size()]. *)
Definition size (this : t) : M nat := Array_size (args this).

(** [getArgs()]: the array itself. *)
Definition getArgs (this : t) : loc := args this.

(** The six operations that take a token out of the buffer. *)
Inductive taker : Type := Shift | ShiftAny | ShiftIf | ShiftIfAny | Pop | PopAny.

(** The store after a taking operation. *)
Definition take {V} (op : taker) (this : t) (ps : list (ArgumentValueParser V))
    (σ : Store) : Store :=
  match op with
  | Shift => (shift this ps σ).2
  | ShiftAny => (shiftAny this ps σ).2
  | ShiftIf => (shiftIf this ps σ).2
  | ShiftIfAny => (shiftIfAny this ps σ).2
  | Pop => (pop this ps σ).2
  | PopAny => (popAny this ps σ).2
  end.

(** The buffer of a parser. *)
Definition buffer (this : t) (σ : Store) : list string := deref σ (args this).

End ArgumentParser.


(** ** Commander *)

(** [enum ExecutionResult]. *)
Inductive ExecutionResult : Type := EXECUTED | NOT_FOUND | NO_PERMISSION.

Module Commander.

(** Values of type [unknown]: what an executor returns or throws. *)
Inductive unknown : Type :=
  | VUndefined
  | VBoolean (b : bool)
  | VNumber (n : Z)
  | VString (s : string).

(** [v !== false]. *)
Definition isnt_false (v : unknown) : bool :=
  match v with VBoolean false => false | _ => true end.

(** How a piece of code ends: with a value, or by throwing. *)
Inductive completion (A : Type) : Type :=
  | Normal (a : A)
  | Throw (err : unknown).
Arguments Normal {A} a.
Arguments Throw {A} err.

(** A settled promise. *)
Inductive Promise (A : Type) : Type :=
  | Resolved (a : A)
  | Rejected (err : unknown).
Arguments Resolved {A} a.
Arguments Rejected {A} err.

(** [interface CommandConfig]. *)
Record CommandConfig : Type := {
  identifier : string;
  aliases : option (list string)
}.

(** The sender of a command. *)
Definition Player : Type := nat.

(** [type ExecutorArgs = [sender, args, usedAlias]]. *)
Definition ExecutorArgs : Type := Player * ArgumentParser.t * string.

(** [type CExecutor = CommandExecutor | AnonCommandExecutor]. *)
Inductive CExecutor : Type :=
  | AnonCommandExecutor (f : ExecutorArgs → M (completion unknown))
  | CommandExecutor (execute : ExecutorArgs → M (completion unknown)).

(** [type CommandDescriptor]. *)
Record CommandDescriptor : Type := {
  config : CommandConfig;
  executor : CExecutor
}.

(** What is observed once the executor has run, after the caller of the
    dispatch has its [ExecutionResult]. *)
Inductive observed : Type :=
  | HookCalled (command : CommandDescriptor) (commandResult : unknown)
      (executorArgs : ExecutorArgs)
  | UnhandledRejection (err : unknown).

(** [class Commander]: the command map, the optional defaulter, the optional
    hook given to the constructor and the overridable [canExecute]. *)
Record t : Type := {
  commands : gmap string CommandDescriptor;
  defaulter : option (CommandConfig → CommandConfig);
  commandHook : option (CommandDescriptor → unknown → ExecutorArgs → M unit);
  canExecute : Player → CommandDescriptor → bool
}.

(** [new Commander(commandHook?)]; [canExecute] returns [true] unless a
    subclass overrides it. *)
Definition new (hook : option (CommandDescriptor → unknown → ExecutorArgs → M unit)) : t :=
  {| commands := ∅; defaulter := None; commandHook := hook;
     canExecute := fun _ _ => true |}.

(** [try { body } finally { finalizer }]: the finalizer runs in both cases
    and the completion of the body stands unless the finalizer throws. *)
Definition tryFinally {A} (body : M (completion A)) (finalizer : M (completion unit))
    : M (completion A) :=
  let* r := body in
  let* f := finalizer in
  ret (match f with Throw err => Throw err | Normal _ => r end).

(** An [async] function: its promise resolves with the returned value and
    rejects with what the body throws. *)
Definition async {A} (body : M (completion A)) : M (Promise A) :=
  let* r := body in
  ret (match r with Normal a => Resolved a | Throw err => Rejected err end).

(** [typeIs(executor, 'function') ? executor(...args) : executor.execute(...args)]. *)
Definition invoke (executor : CExecutor) (args : ExecutorArgs) : M (completion unknown) :=
  match executor with
  | AnonCommandExecutor f => f args
  | CommandExecutor execute => execute args
  end.

(** [runExecutor(executor, args)]. *)
Definition runExecutor (executor : CExecutor) (args : ExecutorArgs) : M (Promise bool) :=
  async (
    let success := false in
    let* r :=
      tryFinally
        (let* result := invoke executor args in
         ret (match result with
              | Normal v => Normal (isnt_false v)
              | Throw err => Throw err
              end))
        (ret (Normal tt)) in
    ret (match r with
         | Normal success' => Normal success'
         | Throw err => Throw err
         end)).

(** [promise.then((res) => { if (this.commandHook) this.commandHook(...) })]:
    the callback runs only when the promise resolves. *)
Definition thenHook (this : t) (command : CommandDescriptor)
    (executorArgs : ExecutorArgs) (promise : Promise bool) : M (list observed) :=
  match promise with
  | Resolved res =>
      match commandHook this with
      | Some hook =>
          let* _ := hook command (VBoolean res) executorArgs in
          ret [HookCalled command (VBoolean res) executorArgs]
      | None => ret []
      end
  | Rejected err => ret [UnhandledRejection err]
  end.

(** The private [execute(sender, command, args, usedAlias)]: the
    [ExecutionResult] for the caller, and what is observed afterwards. *)
Definition execute (this : t) (sender : Player) (command : CommandDescriptor)
    (args : loc) (usedAlias : string) : M (ExecutionResult * list observed) :=
  if negb (canExecute this sender command) then ret (NO_PERMISSION, [])
  else
    let executor := executor command in
    let* argsParser := ArgumentParser.new (Some args) in
    let executorArgs := (sender, argsParser, usedAlias) in
    let* promise := runExecutor executor executorArgs in
    let* later := thenHook this command executorArgs promise in
    ret (EXECUTED, later).

(** [executeConfig(sender, config, args)]. *)
Definition executeConfig (this : t) (sender : Player) (config : CommandConfig)
    (args : loc) : M (ExecutionResult * list observed) :=
  match commands this !! identifier config with
  | None => ret (NOT_FOUND, [])
  | Some descriptor => execute this sender descriptor args (identifier config)
  end.

(** [executeDescriptor(sender, descriptor, args)]. *)
Definition executeDescriptor (this : t) (sender : Player)
    (descriptor : CommandDescriptor) (args : loc)
    : M (ExecutionResult * list observed) :=
  execute this sender descriptor args (identifier (config descriptor)).

(** [executeName(sender, command, args)]. *)
Definition executeName (this : t) (sender : Player) (command : string)
    (args : loc) : M (ExecutionResult * list observed) :=
  match commands this !! command with
  | None => ret (NOT_FOUND, [])
  | Some descriptor => execute this sender descriptor args command
  end.

(** [getDescriptor(name)]. *)
Definition getDescriptor (this : t) (name : string) : option CommandDescriptor :=
  commands this !! name.

(** [registerCommand(config, executor)]. *)
Definition registerCommand (this : t) (config : CommandConfig) (executor : CExecutor) : t :=
  let descriptor :=
    {| config := match defaulter this with Some d => d config | None => config end;
       executor := executor |} in
  let commands1 := <[identifier config := descriptor]> (commands this) in
  let commands2 :=
    match aliases config with
    | Some l => foldl (fun m a => <[a := descriptor]> m) commands1 l
    | None => commands1
    end in
  {| commands := commands2; defaulter := defaulter this;
     commandHook := commandHook this; canExecute := canExecute this |}.

(** [deregisterCommand(config)]. *)
Definition deregisterCommand (this : t) (config : CommandConfig) : bool * t :=
  match commands this !! identifier config with
  | None => (false, this)
  | Some _ =>
      let commands1 := delete (identifier config) (commands this) in
      let commands2 :=
        match aliases config with
        | Some l => foldl (fun m a => delete a m) commands1 l
        | None => commands1
        end in
      (true, {| commands := commands2; defaulter := defaulter this;
                commandHook := commandHook this; canExecute := canExecute this |})
  end.

End Commander.

(** ** CommandParser *)

Module CommandParser.

(** The functions of [Strings] of the external package @rbxts/zycore that
    [disect] calls.  They are not part of this repository and are taken as
    they come: nothing is assumed about them. *)
Record StringsLib : Type := {
  trim : string → string;
  startsWith : string → string → bool;
  slice : string → nat → string
}.

(** [class CommandParser]: the command prefix. *)
Record t : Type := { prefix : string }.

(** [new CommandParser(prefix)]. *)
Definition new (prefix : string) : t := {| prefix := prefix |}.

(** [setPrefix(prefix)]. *)
Definition setPrefix (this : t) (prefix : string) : t := {| prefix := prefix |}.

(** [getPrefix()]. *)
Definition getPrefix (this : t) : string := prefix this.

(** [!s] on a string: only the empty string is falsy. *)
Definition falsy (s : string) : bool :=
  match s with EmptyString => true | String _ _ => false end.

(** [s.split(sep)] for a separator of one character: the pieces between the
    separators, empty pieces included; the empty string has one empty piece. *)
Fixpoint split (sep : Ascii.ascii) (s : string) : list string :=
  match s with
  | EmptyString => [EmptyString]
  | String c rest =>
      if Ascii.eqb c sep then EmptyString :: split sep rest
      else
        match split sep rest with
        | [] => [String c EmptyString]
        | piece :: pieces => String c piece :: pieces
        end
  end.

(** The character of the separator [' ']. *)
Definition space : Ascii.ascii :=
  Ascii.Ascii false false false false false true false false.

(** What [disect] returns: [{ name, args, input }]. *)
Record Disected : Type := { name : string; args : list string; input : string }.

(** [disect(input)]. *)
Definition disect (Strings : StringsLib) (this : t) (input : string) : option Disected :=
  if falsy input then None
  else
    let trimmed := trim Strings input in
    if falsy trimmed || negb (startsWith Strings trimmed (prefix this)) then None
    else
      let deprefixed := slice Strings trimmed (String.length (prefix this) + 1) in
      if falsy deprefixed then None
      else
        let split := split space deprefixed in
        let name := head split in
        let args := tail split in
        match name with
        | Some name =>
            if falsy name then None
            else Some {| name := name; args := args; input := input |}
        | None => None
        end.

End CommandParser.

(** ** Specification helpers *)
(** Whether some parser of [ps] yields a value on [value]. *)
Definition anyMatches {V} (ps : list (ArgumentValueParser V)) (value : string) : bool :=
  existsb (λ p, bool_decide (is_Some (parse p value))) ps.

(** What a taking operation leaves of a buffer [buf]. *)
Definition taken {V} (op : ArgumentParser.taker) (ps : list (ArgumentValueParser V))
    (buf : list string) : list string :=
  match op with
  | ArgumentParser.Shift | ArgumentParser.ShiftAny => tail buf
  | ArgumentParser.Pop | ArgumentParser.PopAny => removelast buf
  | ArgumentParser.ShiftIf | ArgumentParser.ShiftIfAny =>
      match buf with
      | [] => []
      | tok :: rest => if anyMatches ps tok then rest else tok :: rest
      end
  end.

(** The first value that a parser of [ps], in order, makes of [tok]. *)
Fixpoint firstValue {V} (ps : list (ArgumentValueParser V)) (tok : string) : option V :=
  match ps with
  | [] => None
  | p :: rest =>
      match parse p tok with
      | Some v => Some v
      | None => firstValue rest tok
      end
  end.

(** The resolution written on the two lists, step by step and token by
    token: a step that finds a value takes the token; a required step that
    finds none ends the resolution; an optional step that finds none leaves
    the token to the next step; without tokens nothing more is filled. *)
Fixpoint resolve {V} (sts : list (ParseStep V)) (toks : list string) : list (Option V) :=
  match sts with
  | [] => []
  | st :: sts' =>
      match toks with
      | [] => nones (length sts)
      | tok :: toks' =>
          match firstValue (parsers st) tok with
          | Some v => Option_some v :: resolve sts' toks'
          | None =>
              if required st then nones (length sts)
              else Option_none :: resolve sts' toks
          end
      end
  end.

(** Number of cells that hold a value. *)
Definition filled {V} (results : list (Option V)) : nat :=
  length (List.filter isSome results).

(** The names under which a command is registered: its identifier and its
    aliases. *)
Definition commandNames (config : Commander.CommandConfig) : list string :=
  Commander.identifier config :: default [] (Commander.aliases config).

(** The descriptor that [registerCommand] makes of a config and an executor. *)
Definition registered (this : Commander.t) (config : Commander.CommandConfig)
    (executor : Commander.CExecutor) : Commander.CommandDescriptor :=
  {| Commander.config :=
       match Commander.defaulter this with Some d => d config | None => config end;
     Commander.executor := executor |}.

(** The cells after the [set] calls of a log, in the order of the log. *)
Fixpoint replay {V} (log : list (event V)) (options : list (Option V))
    : list (Option V) :=
  match log with
  | [] => options
  | ESet slot v :: rest => replay rest (alter (Option_set v) slot options)
  | _ :: rest => replay rest options
  end.

(** The parsers of the step at [stepIndex], if there is one. *)
Definition parsersOf {V} (this : ArgumentDescriptor V) (stepIndex : nat)
    : list (ArgumentValueParser V) :=
  match steps this !! stepIndex with
  | Some step => parsers step
  | None => []
  end.

(** The events of asking the first [m] parsers of [ps] about [tok] for the
    step [stepIndex], from parser number [index] on: each [parse] call,
    followed by the [set] call with its answer. *)
Fixpoint asked {V} (stepIndex index : nat) (tok : string)
    (ps : list (ArgumentValueParser V)) (m : nat) : list (event V) :=
  match m, ps with
  | S m', p :: ps' =>
      EParse stepIndex index tok :: ESet stepIndex (parse p tok)
        :: asked stepIndex (S index) tok ps' m'
  | _, _ => []
  end.

(** The [parse] and [set] events of one step. *)
Definition is_on {V} (stepIndex : nat) (e : event V) : bool :=
  is_parse_on stepIndex e || is_set_on stepIndex e.

(** Whether the character [c] occurs in [s]. *)
Fixpoint occurs (c : Ascii.ascii) (s : string) : bool :=
  match s with
  | EmptyString => false
  | String c' rest => Ascii.eqb c' c || occurs c rest
  end.

(** ** Example parsers and descriptors *)

(** A parser that accepts the token [word] and nothing else. *)
Definition wordParser {V} (word : string) (v : V) : ArgumentValueParser V :=
  {| parse s := if String.eqb s word then Some v else None |}.

(** A descriptor over the array at location [0], before any step. *)
Definition blank : ArgumentDescriptor nat := {| steps := []; defaultArgs := 0 |}.

(** One required step. *)
Definition oneRequired : ArgumentDescriptor nat :=
  then_ blank (Single (wordParser "5" 5)) true.

(** An optional colour, then a required size. *)
Definition colourThenSize : ArgumentDescriptor nat :=
  then_ (then_ blank (Single (wordParser "red" 1)) false)
    (Single (wordParser "large" 3)) true.

(** An optional colour, a required size, an optional shade. *)
Definition colourSizeShade : ArgumentDescriptor nat :=
  then_ (then_ (then_ blank (Single (wordParser "red" 1)) false)
           (Single (wordParser "large" 3)) true)
    (Single (wordParser "dark" 7)) false.

(** Three optional steps. *)
Definition threeOptional : ArgumentDescriptor nat :=
  then_ (then_ (then_ blank (Single (wordParser "red" 1)) false)
           (Single (wordParser "green" 2)) false)
    (Single (wordParser "blue" 3)) false.

(** One step with two alternative parsers. *)
Definition twoAlternatives : ArgumentDescriptor nat :=
  then_ blank (Several [wordParser "red" 1; wordParser "large" 3]) false.

(** Three alternatives, the last two of which accept the same token. *)
Definition alternatives : list (ArgumentValueParser nat) :=
  [wordParser "red" 1; wordParser "large" 3; wordParser "large" 4].

(** The command of the README, with an alias. *)
Definition hurt : Commander.CommandConfig :=
  {| Commander.identifier := "hurt"; Commander.aliases := Some ["dmg"] |}.

(** A handler that throws. *)
Definition raising : Commander.CExecutor :=
  Commander.AnonCommandExecutor
    (fun _ => ret (Commander.Throw (Commander.VString "boom"))).

(** A handler that returns [false]. *)
Definition declining : Commander.CExecutor :=
  Commander.AnonCommandExecutor
    (fun _ => ret (Commander.Normal (Commander.VBoolean false))).

(** A hook that does nothing of its own. *)
Definition quietHook (command : Commander.CommandDescriptor)
    (commandResult : Commander.unknown) (executorArgs : Commander.ExecutorArgs)
    : M unit :=
  ret tt.

(** A commander with a hook. *)
Definition hooked : Commander.t := Commander.new (Some quietHook).

(** Stand-ins for the [Strings] functions in the examples: no trimming, a
    prefix test, and the rest of a string from a position counted from 1. *)
Definition plainStrings : CommandParser.StringsLib :=
  {| CommandParser.trim := λ s, s;
     CommandParser.startsWith := λ s p, String.prefix p s;
     CommandParser.slice := λ s start,
       String.substring (start - 1) (String.length s) s |}.

(** A parser of commands that start with an exclamation mark. *)
Definition bang : CommandParser.t := CommandParser.new "!".

(** * Properties *)

Section ResolutionFacts.

Context {V : Type}.
Implicit Types (this : ArgumentDescriptor V) (step : ParseStep V).
Implicit Types (opt : Option V) (options : list (Option V)).
Implicit Types (log evs : list (event V)) (ps : list (ArgumentValueParser V)).

(** *** Counting events *)

Lemma count_nil (p : event V → bool) : count p [] = 0.
Proof. reflexivity. Qed.

Lemma count_cons (p : event V → bool) e log :
  count p (e :: log) = (if p e then 1 else 0) + count p log.
Proof. unfold count. simpl. destruct (p e); reflexivity. Qed.

Lemma count_app (p : event V → bool) log1 log2 :
  count p (log1 ++ log2) = count p log1 + count p log2.
Proof. unfold count. rewrite List.filter_app, length_app. reflexivity. Qed.

Lemma count_zero_not_In (p : event V → bool) log e :
  count p log = 0 → In e log → p e = false.
Proof.
  induction log as [|e' log IH]; [intros _ []|].
  rewrite count_cons. intros Hc [->|Hin].
  - destruct (p e); [discriminate | reflexivity].
  - apply IH; [lia | assumption].
Qed.

Ltac count_simpl :=
  repeat first [rewrite count_cons | rewrite count_app | rewrite count_nil].

(** *** The loop over the parsers of one step *)

(** One parser after another is asked about the same token; the cell is set
    after each answer; nothing else happens in the loop. *)
Lemma tryParsers_facts k value ps : ∀ i opt m o evs,
  tryParsers k i value ps opt = (m, o, evs) →
  count is_call evs = 0 ∧
  count (is_set_on k) evs ≤ length ps ∧
  count (is_fill_on k) evs = (if m then 1 else 0) ∧
  (∀ s, s ≠ k → count (is_set_on s) evs = 0 ∧ count (is_fill_on s) evs = 0
                 ∧ count (is_parse_on s) evs = 0) ∧
  count (is_parse_on k) evs ≤ length ps ∧
  (∀ a b c, In (EParse a b c) evs → a = k ∧ c = value) ∧
  (m = true → ∃ p v, p ∈ ps ∧ parse p value = Some v ∧ o = Option_some v) ∧
  (m = false → Forall (λ p, parse p value = None) ps ∧ (o = opt ∨ o = Option_none)).
Proof.
  induction ps as [|p ps IH]; intros i opt m o evs; simpl.
  - intros [= <- <- <-]. rewrite !count_nil.
    split; [reflexivity|]. split; [lia|]. split; [reflexivity|].
    split; [intros; rewrite !count_nil; auto|].
    split; [lia|]. split; [intros a b c []|].
    split; [discriminate|]. intros _. split; [constructor | left; reflexivity].
  - unfold Option_set.
    destruct (parse p value) as [v|] eqn:Hp; simpl.
    + intros [= <- <- <-]. rewrite !count_cons, !count_nil. simpl.
      rewrite !bool_decide_eq_true_2 by reflexivity.
      split; [reflexivity|]. split; [lia|]. split; [reflexivity|].
      split. { intros s Hs. rewrite !count_cons, !count_nil. simpl.
               rewrite !bool_decide_eq_false_2 by congruence. auto. }
      split; [lia|].
      split. { intros a b c [[= <- <- <-]|[[=]|[]]]. auto. }
      split; [|discriminate].
      intros _. exists p, v. split; [left|]. auto.
    + destruct (tryParsers k (S i) value ps (mkOption None)) as [[m' o'] evs'] eqn:Ht.
      intros [= <- <- <-].
      destruct (IH _ _ _ _ _ Ht) as (Hc & Hs & Hf & Ho & Hpo & Hpe & Ht1 & Ht2).
      rewrite !count_cons. simpl. rewrite Hc, Hf.
      rewrite !bool_decide_eq_true_2 by reflexivity.
      split; [reflexivity|]. split; [lia|]. split; [reflexivity|].
      split. { intros s Hne. destruct (Ho s Hne) as (? & ? & ?).
               rewrite !count_cons. simpl.
               rewrite !bool_decide_eq_false_2 by congruence. lia. }
      split; [lia|].
      split. { intros a b c [[= <- <- <-]|[[=]|Hin]]; eauto. }
      split.
      * intros Hm. destruct (Ht1 Hm) as (p' & v & Hin & Hv & ->).
        exists p', v. split; [right|]; auto.
      * intros Hm. destruct (Ht2 Hm) as [Hall Ho']. split.
        -- constructor; assumption.
        -- right. destruct Ho' as [->| ->]; reflexivity.
Qed.

(** *** One frame of [parseFrom] *)

Lemma parseFrom_body this args k j options :
  parseFrom this args k j options =
  match steps this !! k with
  | None => (options, [ECall k j])
  | Some step =>
      match args !! j, options !! k with
      | Some value, Some opt =>
          let '(matched, opt', evs) := tryParsers k 0 value (parsers step) opt in
          let options' := <[k := opt']> options in
          if matched then
            after (ECall k j :: evs) (parseFrom this args (S k) (S j) options')
          else if required step then (options', ECall k j :: evs)
          else after (ECall k j :: evs) (parseFrom this args (S k) j options')
      | _, _ => (options, [ECall k j])
      end
  end.
Proof.
  simp parseFrom. unfold Logic.inspect.
  generalize (@eq_refl _ (steps this !! k)).
  generalize (steps this !! k) at 2 4 5.
  intros [step|] e; reflexivity.
Qed.

(** Case analysis along the body of [parseFrom]: a hit, a miss on a required
    step, a miss on an optional step, and the three ways the guard returns. *)
Ltac parseFrom_cases this args k j options :=
  rewrite (parseFrom_body this args k j options);
  let st := fresh "st" in
  let tok := fresh "tok" in
  let cell := fresh "cell" in
  let m := fresh "m" in
  let o := fresh "o" in
  let evs := fresh "evs" in
  let Hst := fresh "Hst" in
  let Htok := fresh "Htok" in
  let Hcell := fresh "Hcell" in
  let Htry := fresh "Htry" in
  let Hreq := fresh "Hreq" in
  destruct (steps this !! k) as [st|] eqn:Hst;
  [ destruct (args !! j) as [tok|] eqn:Htok;
    [ destruct (options !! k) as [cell|] eqn:Hcell;
      [ destruct (tryParsers k 0 tok (parsers st) cell) as [[m o] evs] eqn:Htry;
        pose proof (tryParsers_facts _ _ _ _ _ _ _ _ Htry);
        pose proof (lookup_lt_Some _ _ _ Hst);
        destruct m; [ | destruct (required st) eqn:Hreq ] | ] | ] | ];
  cbn [after fst snd].

Lemma parseFrom_length this args : ∀ n k j options,
  length (steps this) - k = n →
  length (parseFrom this args k j options).1 = length options.
Proof.
  induction n as [|n IH]; intros k j options Hn;
    parseFrom_cases this args k j options;
    try reflexivity; try lia;
    rewrite ?IH by lia; apply length_insert.
Qed.

Lemma parseFrom_log_head this args k j options :
  ∃ rest, (parseFrom this args k j options).2 = ECall k j :: rest.
Proof.
  parseFrom_cases this args k j options; eexists; reflexivity.
Qed.

(** At most one frame per step, and one more that only returns. *)
Lemma parseFrom_frames this args : ∀ n k j options,
  length (steps this) - k = n →
  count is_call (parseFrom this args k j options).2 ≤ S n.
Proof.
  induction n as [|n IH]; intros k j options Hn;
    parseFrom_cases this args k j options;
    count_simpl; cbn [is_call];
    try lia.
  all: match goal with
       | |- context [parseFrom _ _ ?a ?b ?c] =>
           pose proof (IH a b c ltac:(lia))
       | _ => idtac
       end.
  all: match goal with H : count is_call _ = 0 ∧ _ |- _ => destruct H as [H _] end.
  all: lia.
Qed.

(** A frame that shows up in the log is a frame the run goes through: what
    comes after it is what [parseFrom] does from there, on options that the
    earlier frames have left untouched from that step on. *)
Lemma parseFrom_reach this args : ∀ n k j options,
  length (steps this) - k = n →
  ∀ k' j', In (ECall k' j') (parseFrom this args k j options).2 →
  ∃ pre options',
    (parseFrom this args k j options).1 = (parseFrom this args k' j' options').1 ∧
    (parseFrom this args k j options).2 = pre ++ (parseFrom this args k' j' options').2 ∧
    k ≤ k' ∧ j ≤ j' ∧
    length options' = length options ∧
    (∀ i, k' ≤ i → options' !! i = options !! i) ∧
    (∀ a b, In (ECall a b) pre → a < k' ∧ b ≤ j').
Proof.
  induction n as [|n IH]; intros k j options Hn k' j' Hin.
  all: destruct (decide ((k', j') = (k, j))) as [[= -> ->]|Hne];
    [ exists [], options;
      split; [reflexivity|]; split; [reflexivity|]; split; [lia|];
      split; [lia|]; split; [reflexivity|]; split; [auto | intros ? ? []] | ].
  all: revert Hin; parseFrom_cases this args k j options.
  all: try (intros [[= <- <-]|[]]; congruence).
  all: try lia.
  all: intros [[= <- <-]|Hin]; [congruence|].
  all: try apply in_app_or in Hin as [Hin|Hin].
  all: try (exfalso;
            match goal with
            | H : count is_call ?evs = 0 ∧ _, Hin : In _ ?evs |- _ =>
                destruct H as [H _];
                apply (count_zero_not_In _ _ _ H) in Hin; discriminate
            end).
  all: apply IH in Hin; [|lia].
  all: destruct Hin as (pre & options' & H1 & H2 & Hk & Hj & Hlen & Hsame & Hpre).
  all: exists (ECall k j :: evs ++ pre), options'.
  all: rewrite H1, H2, Hlen, length_insert.
  all: split; [reflexivity|].
  all: split; [simpl; rewrite <- app_assoc; reflexivity|].
  all: split; [lia|]; split; [lia|]; split; [reflexivity|].
  all: split;
    [ intros i Hi; rewrite Hsame by assumption;
      apply list_lookup_insert_ne; lia | ].
  all: intros a b [[= <- <-]|Hab]; [lia|].
  all: apply in_app_or in Hab as [Hab|Hab]; [|apply Hpre; assumption].
  all: exfalso;
    match goal with
    | H : count is_call ?evs = 0 ∧ _, Hin : In _ ?evs |- _ =>
        destruct H as [H _];
        apply (count_zero_not_In _ _ _ H) in Hin; discriminate
    end.
Qed.

(** Frames only touch their own slot: parsers of step [s] are asked, and
    the cell of slot [s] is set, in the frame of step [s] alone. *)
Lemma parseFrom_slot_events this args : ∀ n k j options,
  length (steps this) - k = n →
  ∀ s,
    count (is_set_on s) (parseFrom this args k j options).2
      ≤ (if decide (k ≤ s) then parsersAt this s else 0) ∧
    count (is_parse_on s) (parseFrom this args k j options).2
      ≤ (if decide (k ≤ s) then parsersAt this s else 0) ∧
    count (is_fill_on s) (parseFrom this args k j options).2
      ≤ (if decide (k ≤ s) then 1 else 0).
Proof.
  induction n as [|n IH]; intros k j options Hn s;
    parseFrom_cases this args k j options;
    count_simpl; cbn [is_set_on is_parse_on is_fill_on];
    try lia.
  all: match goal with
       | |- context [parseFrom _ _ ?a ?b ?c] =>
           pose proof (IH a b c ltac:(lia) s) as (IH1 & IH2 & IH3);
           revert IH1 IH2 IH3
       | _ => idtac
       end.
  all: match goal with
       | H : count is_call _ = 0 ∧ _ |- _ =>
           destruct H as (_ & Hs & Hf & Ho & Hp & _)
       end.
  all: destruct (decide (s = k)) as [->|Hne];
    [ unfold parsersAt; rewrite Hst | destruct (Ho s Hne) as (? & ? & ?) ].
  all: repeat case_decide; try lia.
  all: destruct m; lia.
Qed.

(** A value found in a slot at the end was there at the start, or is what a
    parser of that step made of some token. *)
Lemma parseFrom_filled this args : ∀ n k j options,
  length (steps this) - k = n →
  ∀ s v,
    (parseFrom this args k j options).1 !! s = Some (Option_some v) →
    options !! s = Some (Option_some v) ∨
    (k ≤ s ∧ ∃ st p value,
       steps this !! s = Some st ∧ p ∈ parsers st ∧ parse p value = Some v).
Proof.
  induction n as [|n IH]; intros k j options Hn s v;
    parseFrom_cases this args k j options; auto; try lia.
  all: intros Hres.
  all: try (apply IH in Hres; [|lia];
            destruct Hres as [Hres|(Hk & Hs)]; [|right; split; [lia | exact Hs]]).
  all: match goal with
       | H : count is_call _ = 0 ∧ _ |- _ =>
           destruct H as (_ & _ & _ & _ & _ & _ & Hhit & Hmiss)
       end.
  all: destruct (decide (s = k)) as [->|Hne];
    [ rewrite list_lookup_insert_eq in Hres by (eapply lookup_lt_Some; eassumption)
    | rewrite list_lookup_insert_ne in Hres by congruence; left; exact Hres ].
  all: injection Hres as ->.
  - destruct (Hhit eq_refl) as (p & v' & Hin & Hp & [= ->]).
    right. split; [lia|]. exists st, p, tok. auto.
  - destruct (Hmiss eq_refl) as [_ [<-|[=]]]. left. assumption.
  - destruct (Hmiss eq_refl) as [_ [<-|[=]]]. left. assumption.
Qed.

(** *** A miss *)

Lemma tryParsers_miss k i value ps opt :
  (∀ p, p ∈ ps → parse p value = None) →
  ∃ o tried,
    tryParsers k i value ps opt = (false, o, tried) ∧
    (o = opt ∨ o = Option_none) ∧
    (ps = [] → tried = []) ∧
    count is_call tried = 0 ∧
    (∀ a b c, In (EParse a b c) tried → a = k ∧ c = value).
Proof.
  intros Hmiss.
  destruct (tryParsers k i value ps opt) as [[m o] tried] eqn:Htry.
  pose proof (tryParsers_facts _ _ _ _ _ _ _ _ Htry)
    as (Hc & _ & _ & _ & _ & Hpe & Hhit & Hmiss').
  destruct m.
  - destruct (Hhit eq_refl) as (p & v & Hin & Hp & _).
    rewrite (Hmiss p Hin) in Hp. discriminate.
  - exists o, tried. destruct (Hmiss' eq_refl) as [_ Ho].
    repeat split; auto.
    + intros ->. simpl in Htry. congruence.
    + eapply Hpe; eassumption.
    + eapply Hpe; eassumption.
Qed.

Lemma tryParsers_first k i value p ps opt :
  ∃ rest, (tryParsers k i value (p :: ps) opt).2 = EParse k i value :: rest.
Proof.
  simpl. destruct (isSome _); [eexists; reflexivity|].
  destruct (tryParsers _ _ _ _ _) as [[m o] evs]. eexists; reflexivity.
Qed.

(** The frame of a step that misses on an empty cell: the options stay as
    they are; a required step returns them, an optional step goes on to the
    next step with the same token index. *)
Lemma parseFrom_miss this args k j options st value :
  steps this !! k = Some st →
  args !! j = Some value →
  options !! k = Some Option_none →
  (∀ p, p ∈ parsers st → parse p value = None) →
  ∃ tried,
    count is_call tried = 0 ∧
    (parsers st = [] → tried = []) ∧
    (∀ a b c, In (EParse a b c) tried → a = k ∧ c = value) ∧
    parseFrom this args k j options =
      if required st then (options, ECall k j :: tried)
      else after (ECall k j :: tried) (parseFrom this args (S k) j options).
Proof.
  intros Hst Htok Hcell Hmiss.
  destruct (tryParsers_miss k 0 value (parsers st) Option_none Hmiss)
    as (o & tried & Htry & Ho & Hnil & Hc & Hpe).
  exists tried. repeat split; auto; try (eapply Hpe; eassumption).
  rewrite parseFrom_body, Hst, Htok. rewrite Hcell, Htry.
  assert (<[k := o]> options = options) as ->.
  { apply list_insert_id. destruct Ho as [->| ->]; assumption. }
  reflexivity.
Qed.

(** What a frame reached by [compile] finds: the options from its own slot
    on are still the empty cells that [compile] allocated. *)
Lemma compile_reach this args k j :
  In (ECall k j) (compile this args).2 →
  ∃ pre options,
    (compile this args).1 = (parseFrom this args k j options).1 ∧
    (compile this args).2 = pre ++ (parseFrom this args k j options).2 ∧
    length options = length (steps this) ∧
    (∀ i, k ≤ i → i < length (steps this) → options !! i = Some Option_none) ∧
    (∀ a b, In (ECall a b) pre → a < k ∧ b ≤ j).
Proof.
  unfold compile. intros Hin.
  eapply parseFrom_reach in Hin; [|reflexivity].
  destruct Hin as (pre & options & H1 & H2 & _ & _ & Hlen & Hsame & Hpre).
  exists pre, options. unfold nones in *. rewrite length_replicate in Hlen.
  repeat split; auto; try (eapply Hpre; eassumption).
  intros i Hk Hi. rewrite Hsame by assumption.
  apply lookup_replicate_2. assumption.
Qed.

(** *** The cells as the [set] calls leave them *)

Lemma replay_app log1 log2 options :
  replay (log1 ++ log2) options = replay log2 (replay log1 options).
Proof.
  revert options. induction log1 as [|[| |slot v] log1 IH]; intros options; simpl; auto.
Qed.

(** The loop over the parsers leaves in the cell of its step what its [set]
    calls put there. *)
Lemma tryParsers_replay k tok ps : ∀ i cell m o evs options,
  tryParsers k i tok ps cell = (m, o, evs) →
  options !! k = Some cell →
  replay evs options = <[k := o]> options.
Proof.
  induction ps as [|p ps IH]; intros i cell m o evs options; simpl.
  - intros [= <- <- <-] Hcell. simpl. symmetry. apply list_insert_id. exact Hcell.
  - destruct (isSome (Option_set (parse p tok) cell)) eqn:Hs.
    + intros [= <- <- <-] Hcell. simpl. symmetry. apply list_insert_alter.
    + destruct (tryParsers k (S i) tok ps (Option_set (parse p tok) cell))
        as [[m' o'] evs'] eqn:Ht.
      intros [= <- <- <-] Hcell. simpl.
      pose proof (lookup_lt_Some _ _ _ Hcell) as Hk.
      assert (alter (Option_set (parse p tok)) k options
              = <[k := Option_set (parse p tok) cell]> options) as ->
        by (symmetry; apply list_insert_alter).
      rewrite (IH _ _ _ _ _ _ Ht) by (apply list_lookup_insert_eq; exact Hk).
      apply list_insert_insert_eq.
Qed.

(** The events of the loop over the parsers: the parsers asked, one after
    the other, each followed by the [set] call with its answer; all of them
    when none finds a value. *)
Lemma tryParsers_asked k tok ps : ∀ i opt,
  ∃ m,
    m ≤ length ps ∧
    (tryParsers k i tok ps opt).2 = asked k i tok ps m ∧
    ((∀ p, p ∈ ps → parse p tok = None) → m = length ps).
Proof.
  induction ps as [|p ps IH]; intros i opt.
  - exists 0. simpl. auto.
  - simpl. destruct (isSome (Option_set (parse p tok) opt)) eqn:Hs.
    + exists 1. split; [simpl; lia|]. split; [destruct ps; reflexivity|].
      intros Hmiss. rewrite (Hmiss p) in Hs by left. discriminate.
    + destruct (IH (S i) (Option_set (parse p tok) opt)) as (m & Hm & Hlog & Hall).
      destruct (tryParsers k (S i) tok ps _) as [[m' o'] evs'].
      cbn [snd] in Hlog |- *. subst evs'.
      exists (S m). split; [simpl; lia|]. split; [reflexivity|].
      intros Hmiss. rewrite Hall; [reflexivity|].
      intros p' Hp'. apply Hmiss. right. exact Hp'.
Qed.

Lemma filter_asked_same k i tok ps m :
  List.filter (is_on k) (asked k i tok ps m) = asked k i tok ps m.
Proof.
  revert i ps. induction m as [|m IH]; intros i [|p ps]; simpl; auto.
  unfold is_on. simpl. rewrite !bool_decide_eq_true_2 by reflexivity. simpl.
  rewrite IH. reflexivity.
Qed.

Lemma filter_asked_other s k i tok ps m :
  s ≠ k → List.filter (is_on s) (asked k i tok ps m) = [].
Proof.
  intros Hne. revert i ps. induction m as [|m IH]; intros i [|p ps]; simpl; auto.
  unfold is_on. simpl. rewrite !bool_decide_eq_false_2 by congruence. simpl.
  apply IH.
Qed.

Lemma count_asked k i tok ps m :
  count (is_set_on k) (asked k i tok ps m) = count (is_parse_on k) (asked k i tok ps m).
Proof.
  revert i ps. induction m as [|m IH]; intros i [|p ps]; simpl; auto.
  rewrite !count_cons. simpl. rewrite !bool_decide_eq_true_2 by reflexivity.
  rewrite IH. reflexivity.
Qed.

Lemma asked_zero s i tok ps : asked s i tok ps 0 = [].
Proof. destruct ps; reflexivity. Qed.

(** The [parse] and [set] events of the step [s] in a run of [parseFrom]:
    those of the loop of the frame of [s], none from the other frames. *)
Lemma filter_call s k j (log : list (event V)) :
  List.filter (is_on s) (ECall k j :: log) = List.filter (is_on s) log.
Proof. reflexivity. Qed.

Lemma parseFrom_slot_log this args : ∀ n k j options,
  length (steps this) - k = n →
  ∀ s, ∃ m tok,
    m ≤ (if decide (k ≤ s) then parsersAt this s else 0) ∧
    List.filter (is_on s) (parseFrom this args k j options).2
    = asked s 0 tok (parsersOf this s) m.
Proof.
  induction n as [|n IH]; intros k j options Hn s;
    parseFrom_cases this args k j options.
  all: try (exfalso; lia).
  all: rewrite ?List.filter_app, ?filter_call.
  all: try (exists 0, EmptyString;
            split; [lia | rewrite asked_zero; reflexivity]).
  all: destruct (tryParsers_asked k tok (parsers st) 0 cell) as (m0 & Hm0 & Hlog & _);
    rewrite Htry in Hlog; cbn [snd] in Hlog; subst evs.
  all: destruct (decide (s = k)) as [->|Hne].
  - (* a hit, the step itself *)
    rewrite filter_asked_same.
    destruct (IH (S k) (S j) (<[k:=o]> options) ltac:(lia) k)
      as (m1 & tok1 & Hm1 & ->).
    rewrite decide_False in Hm1 by lia. assert (m1 = 0) as -> by lia.
    rewrite asked_zero, app_nil_r.
    exists m0, tok. unfold parsersAt, parsersOf. rewrite Hst.
    rewrite decide_True by lia. auto.
  - (* a hit, another step *)
    rewrite (filter_asked_other s k) by exact Hne.
    destruct (IH (S k) (S j) (<[k:=o]> options) ltac:(lia) s)
      as (m1 & tok1 & Hm1 & ->).
    exists m1, tok1. split; [repeat case_decide; lia | reflexivity].
  - (* a miss on a required step, the step itself *)
    rewrite filter_asked_same.
    exists m0, tok. unfold parsersAt, parsersOf. rewrite Hst.
    rewrite decide_True by lia. auto.
  - (* a miss on a required step, another step *)
    rewrite (filter_asked_other s k) by exact Hne.
    exists 0, EmptyString. split; [lia | rewrite asked_zero; reflexivity].
  - (* a miss on an optional step, the step itself *)
    rewrite filter_asked_same.
    destruct (IH (S k) j (<[k:=o]> options) ltac:(lia) k)
      as (m1 & tok1 & Hm1 & ->).
    rewrite decide_False in Hm1 by lia. assert (m1 = 0) as -> by lia.
    rewrite asked_zero, app_nil_r.
    exists m0, tok. unfold parsersAt, parsersOf. rewrite Hst.
    rewrite decide_True by lia. auto.
  - (* a miss on an optional step, another step *)
    rewrite (filter_asked_other s k) by exact Hne.
    destruct (IH (S k) j (<[k:=o]> options) ltac:(lia) s)
      as (m1 & tok1 & Hm1 & ->).
    exists m1, tok1. split; [repeat case_decide; lia | reflexivity].
Qed.

Lemma count_filter_on (p : event V → bool) s log :
  (∀ e, p e = true → is_on s e = true) →
  count p (List.filter (is_on s) log) = count p log.
Proof.
  intros Hp. induction log as [|e log IH]; [reflexivity|]. simpl.
  destruct (is_on s e) eqn:He; rewrite ?count_cons, IH; [reflexivity|].
  destruct (p e) eqn:Hpe; [rewrite (Hp e Hpe) in He; discriminate|reflexivity].
Qed.

(** What a frame reached by a run of [parseFrom] starts from: the options
    as the [set] calls of the earlier frames have left them. *)
Lemma parseFrom_reach_replay this args : ∀ n k j options,
  length (steps this) - k = n →
  ∀ k' j', In (ECall k' j') (parseFrom this args k j options).2 →
  ∃ pre,
    (parseFrom this args k j options).1
      = (parseFrom this args k' j' (replay pre options)).1 ∧
    (parseFrom this args k j options).2
      = pre ++ (parseFrom this args k' j' (replay pre options)).2 ∧
    k ≤ k' ∧ j ≤ j' ∧
    length (replay pre options) = length options ∧
    (∀ i, k' ≤ i → replay pre options !! i = options !! i) ∧
    (∀ a b, In (ECall a b) pre → a < k' ∧ b ≤ j').
Proof.
  induction n as [|n IH]; intros k j options Hn k' j' Hin.
  all: destruct (decide ((k', j') = (k, j))) as [[= -> ->]|Hne];
    [ exists [];
      split; [reflexivity|]; split; [reflexivity|]; split; [lia|];
      split; [lia|]; split; [reflexivity|]; split; [auto | intros ? ? []] | ].
  all: revert Hin; parseFrom_cases this args k j options.
  all: try (intros [[= <- <-]|[]]; congruence).
  all: try lia.
  all: intros [[= <- <-]|Hin]; [congruence|].
  all: try apply in_app_or in Hin as [Hin|Hin].
  all: try (exfalso;
            match goal with
            | H : count is_call ?evs = 0 ∧ _, Hin : In _ ?evs |- _ =>
                destruct H as [H _];
                apply (count_zero_not_In _ _ _ H) in Hin; discriminate
            end).
  all: apply IH in Hin; [|lia].
  all: destruct Hin as (pre & H1 & H2 & Hk & Hj & Hlen & Hsame & Hpre).
  all: exists (ECall k j :: evs ++ pre).
  all: cbn [replay app]; rewrite replay_app,
         (tryParsers_replay _ _ _ _ _ _ _ _ options Htry Hcell).
  all: rewrite H1, H2, Hlen, length_insert.
  all: split; [reflexivity|].
  all: split; [simpl; rewrite <- app_assoc; reflexivity|].
  all: split; [lia|]; split; [lia|]; split; [reflexivity|].
  all: split;
    [ intros i Hi; rewrite Hsame by assumption;
      apply list_lookup_insert_ne; lia | ].
  all: intros a b [[= <- <-]|Hab]; [lia|].
  all: apply in_app_or in Hab as [Hab|Hab]; [|apply Hpre; assumption].
  all: exfalso;
    match goal with
    | H : count is_call ?evs = 0 ∧ _, Hin : In _ ?evs |- _ =>
        destruct H as [H _];
        apply (count_zero_not_In _ _ _ H) in Hin; discriminate
    end.
Qed.

Lemma compile_reach_replay this args k j :
  In (ECall k j) (compile this args).2 →
  ∃ pre,
    (compile this args).1
      = (parseFrom this args k j (replay pre (nones (length (steps this))))).1 ∧
    (compile this args).2
      = pre ++ (parseFrom this args k j (replay pre (nones (length (steps this))))).2 ∧
    (∀ i, k ≤ i → i < length (steps this) →
          replay pre (nones (length (steps this))) !! i = Some Option_none) ∧
    (∀ a b, In (ECall a b) pre → a < k ∧ b ≤ j).
Proof.
  unfold compile. intros Hin.
  eapply parseFrom_reach_replay in Hin; [|reflexivity].
  destruct Hin as (pre & H1 & H2 & _ & _ & _ & Hsame & Hpre).
  exists pre. split; [exact H1|]. split; [exact H2|]. split; [|exact Hpre].
  intros i Hk Hi. rewrite Hsame by assumption.
  unfold nones. apply lookup_replicate_2. assumption.
Qed.

(** The frame of a step all of whose parsers miss, on an empty cell, with
    the events of the loop spelled out. *)
Lemma parseFrom_miss_asked this args k j options st value :
  steps this !! k = Some st →
  args !! j = Some value →
  options !! k = Some Option_none →
  (∀ p, p ∈ parsers st → parse p value = None) →
  parseFrom this args k j options =
    let tried := asked k 0 value (parsers st) (length (parsers st)) in
    if required st then (options, ECall k j :: tried)
    else after (ECall k j :: tried) (parseFrom this args (S k) j options).
Proof.
  intros Hst Htok Hcell Hmiss.
  destruct (tryParsers_miss k 0 value (parsers st) Option_none Hmiss)
    as (o & tried & Htry & Ho & _ & _ & _).
  destruct (tryParsers_asked k value (parsers st) 0 Option_none)
    as (m & _ & Hlog & Hall).
  rewrite Htry in Hlog. cbn [snd] in Hlog. rewrite (Hall Hmiss) in Hlog. subst tried.
  rewrite parseFrom_body, Hst, Htok, Hcell, Htry.
  assert (<[k := o]> options = options) as ->.
  { apply list_insert_id. destruct Ho as [->| ->]; assumption. }
  reflexivity.
Qed.

(** *** Resolution *)

(** C1: when resolution reaches a required step none of whose parsers
    matches the current token, [parseFrom] returns the options as they are at
    that point, which is the result of [compile]: the cells as the [set]
    calls of the earlier frames have left them.  The slot of that step and
    of every later step is empty; the frame of that step is the last one of
    the run, only its own parsers were asked, each of them, about that token,
    and no frame of the run is at a later token. *)
Theorem required_miss_stops this args k j step value :
  In (ECall k j) (compile this args).2 →
  steps this !! k = Some step →
  required step = true →
  args !! j = Some value →
  (∀ p, p ∈ parsers step → parse p value = None) →
  ∃ pre tried filled,
    filled = replay pre (nones (length (steps this))) ∧
    tried = asked k 0 value (parsers step) (length (parsers step)) ∧
    (∀ a b, In (ECall a b) pre → a < k ∧ b ≤ j) ∧
    parseFrom this args k j filled = (filled, ECall k j :: tried) ∧
    compile this args = (filled, pre ++ ECall k j :: tried) ∧
    count is_call tried = 0 ∧
    (∀ a b c, In (EParse a b c) tried → a = k ∧ c = value) ∧
    (∀ i, k ≤ i → i < length (steps this) → filled !! i = Some Option_none) ∧
    (∀ a b, In (ECall a b) (compile this args).2 → b ≤ j).
Proof.
  intros Hin Hst Hreq Htok Hmiss.
  destruct (compile_reach_replay _ _ _ _ Hin) as (pre & H1 & H2 & Hempty & Hpre).
  set (filled := replay pre (nones (length (steps this)))) in *.
  pose proof (lookup_lt_Some _ _ _ Hst) as Hk.
  pose proof (parseFrom_miss_asked this args k j filled step value Hst Htok
                (Hempty k (le_n _) Hk) Hmiss) as Heq.
  cbn zeta in Heq. rewrite Hreq in Heq.
  destruct (tryParsers_miss k 0 value (parsers step) Option_none Hmiss)
    as (o & tried & Htry & _ & _ & Hc & Hpe).
  destruct (tryParsers_asked k value (parsers step) 0 Option_none)
    as (m & _ & Hlog & Hall).
  rewrite Htry in Hlog. cbn [snd] in Hlog. rewrite (Hall Hmiss) in Hlog. subst tried.
  exists pre, (asked k 0 value (parsers step) (length (parsers step))), filled.
  rewrite Heq in H1, H2. cbn [fst snd] in H1, H2.
  split; [reflexivity|]. split; [reflexivity|]. split; [exact Hpre|].
  split; [exact Heq|].
  split; [rewrite (surjective_pairing (compile this args)), H1, H2; reflexivity|].
  split; [exact Hc|]. split; [exact Hpe|]. split; [exact Hempty|].
  intros a b Hab. rewrite H2 in Hab.
  apply in_app_or in Hab as [Hab|[[= <- <-]|Hab]].
  - apply Hpre in Hab. lia.
  - lia.
  - apply (count_zero_not_In _ _ _ Hc) in Hab. discriminate.
Qed.

(** C2: when resolution reaches an optional step none of whose parsers
    matches the current token, the run goes on with the frame of the next
    step at the same token index, and a first parser of that next step is
    asked about the very same token. *)
Theorem optional_miss_keeps_token this args k j step value :
  In (ECall k j) (compile this args).2 →
  steps this !! k = Some step →
  required step = false →
  args !! j = Some value →
  (∀ p, p ∈ parsers step → parse p value = None) →
  ∃ pre tried options post,
    compile this args =
      after (pre ++ ECall k j :: tried) (parseFrom this args (S k) j options) ∧
    (parseFrom this args (S k) j options).2 = ECall (S k) j :: post ∧
    count is_call tried = 0 ∧
    (∀ step' p ps,
       steps this !! S k = Some step' → parsers step' = p :: ps →
       ∃ post', post = EParse (S k) 0 value :: post').
Proof.
  intros Hin Hst Hreq Htok Hmiss.
  destruct (compile_reach _ _ _ _ Hin) as (pre & options & H1 & H2 & Hlen & Hempty & Hpre).
  pose proof (lookup_lt_Some _ _ _ Hst) as Hk.
  destruct (parseFrom_miss this args k j options step value Hst Htok
              (Hempty k (le_n _) Hk) Hmiss) as (tried & Hc & _ & Hpe & Heq).
  rewrite Hreq in Heq. rewrite Heq in H1, H2. cbn [after fst snd] in H1, H2.
  destruct (parseFrom_log_head this args (S k) j options) as [post Hpost].
  exists pre, tried, options, post.
  split.
  { rewrite (surjective_pairing (compile this args)), H1, H2.
    unfold after. rewrite <- app_assoc. reflexivity. }
  split; [exact Hpost|]. split; [exact Hc|].
  intros step' p ps Hst' Hps. revert Hpost.
  rewrite parseFrom_body, Hst', Htok.
  pose proof (lookup_lt_Some _ _ _ Hst') as Hk'.
  rewrite (Hempty (S k)) by lia. rewrite Hps.
  destruct (tryParsers_first (S k) 0 value p ps Option_none) as [rest Hrest].
  destruct (tryParsers _ _ _ _ _) as [[m o] evs]. simpl in Hrest. subst evs.
  destruct m; [|destruct (required step')]; cbn [after fst snd];
    intros [= <-]; eexists; reflexivity.
Qed.

(** C3: [compile] returns as many slots as the descriptor has steps,
    whatever the tokens. *)
Theorem compile_length this args :
  length (compile this args).1 = length (steps this).
Proof.
  unfold compile. rewrite (parseFrom_length this args _ 0 0) by reflexivity.
  unfold nones. apply length_replicate.
Qed.

(** C5, amended: [compile] is a total function whose run has at most one
    frame of [parseFrom] per step and one more that only returns, so the
    depth of the recursion is at most the number of steps. *)
Theorem compile_depth_bound this args :
  count is_call (compile this args).2 ≤ S (length (steps this)) ∧
  depth (compile this args).2 ≤ length (steps this).
Proof.
  pose proof (parseFrom_frames this args _ 0 0
                (nones (length (steps this))) eq_refl) as H.
  unfold depth, compile. lia.
Qed.

(** C8, amended: on the slot of a step, [set] is called once for each
    parser of that step that is tried, right after the [parse] call of that
    parser and with its answer, so as often as parsers of the step are asked
    and at most as often as the step has parsers; at most one of these calls
    carries a value. *)
Theorem compile_set_calls this args s :
  count (is_set_on s) (compile this args).2
    = count (is_parse_on s) (compile this args).2 ∧
  count (is_set_on s) (compile this args).2 ≤ parsersAt this s ∧
  count (is_fill_on s) (compile this args).2 ≤ 1 ∧
  ∃ m tok,
    m ≤ parsersAt this s ∧
    List.filter (is_on s) (compile this args).2
    = asked s 0 tok (parsersOf this s) m.
Proof.
  pose proof (parseFrom_slot_events this args _ 0 0
                (nones (length (steps this))) eq_refl s) as (H1 & _ & H3).
  rewrite decide_True in H1, H3 by lia.
  destruct (parseFrom_slot_log this args _ 0 0
              (nones (length (steps this))) eq_refl s) as (m & tok & Hm & Hlog).
  rewrite decide_True in Hm by lia.
  split; [|split; [exact H1|split; [exact H3|exists m, tok; auto]]].
  unfold compile.
  rewrite <- (count_filter_on (is_set_on s) s), <- (count_filter_on (is_parse_on s) s).
  - rewrite Hlog. apply count_asked.
  - intros e He. unfold is_on. rewrite He. reflexivity.
  - intros e He. unfold is_on. rewrite He. apply orb_true_r.
Qed.

(** C10: [thenIf] with a false condition appends the step without parsers
    and with [required = false], whatever was asked for, and the arity grows
    by one.  In every later resolution, also after more steps were added,
    the slot of that step ends empty, no parser is asked and no [set] is
    called for it, and a frame of that step that has a token is followed at
    once by the frame of the next step at the same token index. *)
Theorem thenIf_false_step (d : ArgumentDescriptor V) (ps : Parsers V) (req : bool) :
  let d' := thenIf d false ps req in
  let k := length (steps d) in
  steps d' = steps d ++ [{| parsers := []; required := false |}] ∧
  length (steps d') = S (length (steps d)) ∧
  ∀ this more args,
    steps this = steps d' ++ more →
    (compile this args).1 !! k = Some Option_none ∧
    count (is_parse_on k) (compile this args).2 = 0 ∧
    count (is_set_on k) (compile this args).2 = 0 ∧
    ∀ j, In (ECall k j) (compile this args).2 → j < length args →
      ∃ pre post,
        (compile this args).2 = pre ++ ECall k j :: ECall (S k) j :: post.
Proof.
  intros d' k. subst d' k. unfold thenIf, push. cbn [steps].
  split; [reflexivity|]. split; [rewrite length_app; simpl; lia|].
  intros this more args Hsteps.
  assert (steps this !! length (steps d)
          = Some {| parsers := []; required := false |}) as Hst.
  { rewrite Hsteps, <- app_assoc. apply list_lookup_middle. reflexivity. }
  pose proof (lookup_lt_Some _ _ _ Hst) as Hk.
  pose proof (parseFrom_slot_events this args _ 0 0
                (nones (length (steps this))) eq_refl (length (steps d)))
    as (H1 & H2 & _).
  rewrite decide_True in H1, H2 by lia.
  unfold parsersAt in H1, H2. rewrite Hst in H1, H2. simpl in H1, H2.
  split.
  { assert (length (compile this args).1 = length (steps this)) as Hlen.
    { unfold compile. rewrite (parseFrom_length this args _ 0 0) by reflexivity.
      unfold nones. apply length_replicate. }
    destruct ((compile this args).1 !! length (steps d)) as [[[v|]]|] eqn:Hres.
    - unfold compile in Hres.
      eapply (parseFrom_filled this args _ 0 0) in Hres; [|reflexivity].
      destruct Hres as [Hres|(_ & st & p & tok & Hst' & Hin & _)].
      + unfold nones in Hres. apply lookup_replicate_1 in Hres as [[=] _].
      + rewrite Hst in Hst'. injection Hst' as <-. simpl in Hin.
        apply elem_of_nil in Hin as [].
    - reflexivity.
    - apply lookup_ge_None in Hres. lia. }
  split; [unfold compile in *; lia|]. split; [unfold compile in *; lia|].
  intros j Hin Hj.
  destruct (compile_reach _ _ _ _ Hin) as (pre & options & _ & H & _ & Hempty & _).
  destruct (lookup_lt_is_Some_2 args j Hj) as [tok Htok].
  destruct (parseFrom_miss this args (length (steps d)) j options _ tok Hst Htok
              (Hempty _ (le_n _) Hk)) as (tried & _ & Hnil & _ & Heq).
  { simpl. intros p Hp. apply elem_of_nil in Hp as []. }
  rewrite (Hnil eq_refl) in Heq. simpl in Heq.
  destruct (parseFrom_log_head this args (S (length (steps d))) j options)
    as [post Hpost].
  exists pre, post. rewrite H, Heq. cbn [after snd]. rewrite Hpost. reflexivity.
Qed.

(** *** The resolution as a function of the steps and the tokens *)

Lemma tryParsers_firstValue k tok ps : ∀ i opt,
  (tryParsers k i tok ps opt).1 =
    match firstValue ps tok with
    | Some v => (true, Option_some v)
    | None => (false, match ps with [] => opt | _ :: _ => Option_none end)
    end.
Proof.
  induction ps as [|p ps IH]; intros i opt; simpl; [reflexivity|].
  unfold Option_set. destruct (parse p tok) as [v|] eqn:Hp; simpl; [reflexivity|].
  specialize (IH (S i) (mkOption None)).
  destruct (tryParsers k (S i) tok ps (mkOption None)) as [[m o] evs].
  simpl in *. rewrite IH.
  destruct (firstValue ps tok); [reflexivity|]. destruct ps; reflexivity.
Qed.

Lemma empty_from options k n :
  length options = n →
  (∀ i, k ≤ i → i < n → options !! i = Some Option_none) →
  options = take k options ++ nones (n - k).
Proof.
  intros Hlen Hempty. rewrite <- (take_drop k options) at 1. f_equal.
  apply list_eq. intros i. rewrite lookup_drop. unfold nones.
  destruct (decide (i < n - k)) as [Hi|Hi].
  - rewrite Hempty by lia. symmetry. apply lookup_replicate_2. exact Hi.
  - rewrite lookup_ge_None_2 by lia. symmetry.
    apply lookup_replicate_None. lia.
Qed.

(** From a frame on, [parseFrom] fills the cells from its step on as
    [resolve] says for the steps and the tokens that are left, and keeps the
    cells before. *)
Lemma parseFrom_resolve this args : ∀ n k j options,
  length (steps this) - k = n →
  length options = length (steps this) →
  (∀ i, k ≤ i → i < length (steps this) → options !! i = Some Option_none) →
  (parseFrom this args k j options).1
  = take k options ++ resolve (drop k (steps this)) (drop j args).
Proof.
  induction n as [|n IH]; intros k j options Hn Hlen Hempty;
    parseFrom_cases this args k j options; try lia.
  all: try (exfalso; apply lookup_lt_Some in Hst; lia).
  all: try solve
    [ (* no step *)
      apply lookup_ge_None_1 in Hst;
      rewrite drop_ge by exact Hst; rewrite take_ge by lia;
      cbn [resolve]; rewrite app_nil_r; reflexivity ].
  all: try (rewrite (drop_S _ _ _ Hst)).
  all: try (rewrite (drop_S _ _ _ Htok)).
  all: try (pose proof (tryParsers_firstValue k tok (parsers st) 0 cell) as Hfv;
            rewrite Htry in Hfv; cbn [fst] in Hfv).
  all: try (assert (cell = Option_none) as ->
              by (rewrite Hempty in Hcell by lia; congruence)).
  - (* a hit *)
    destruct (firstValue (parsers st) tok) as [v|] eqn:Hv;
      [|destruct (parsers st); discriminate].
    injection Hfv as ->.
    rewrite IH; [| lia | rewrite length_insert; exact Hlen |].
    + cbn [resolve]. rewrite Hv.
      rewrite (take_S_r _ _ (Option_some v))
        by (apply list_lookup_insert_eq; lia).
      rewrite take_insert_ge by lia. rewrite <- app_assoc. reflexivity.
    + intros i ? ?. rewrite list_lookup_insert_ne by lia. apply Hempty; lia.
  - (* a miss on a required step *)
    destruct (firstValue (parsers st) tok) as [v|] eqn:Hv; [discriminate|].
    assert (o = Option_none) as -> by (destruct (parsers st); congruence).
    rewrite list_insert_id by (apply Hempty; lia).
    cbn [resolve]. rewrite Hv, Hreq.
    rewrite (empty_from options k _ Hlen Hempty) at 1. f_equal. f_equal.
    cbn [length]. rewrite length_drop. lia.
  - (* a miss on an optional step *)
    destruct (firstValue (parsers st) tok) as [v|] eqn:Hv; [discriminate|].
    assert (o = Option_none) as -> by (destruct (parsers st); congruence).
    rewrite list_insert_id by (apply Hempty; lia).
    rewrite IH; [| lia | exact Hlen | intros; apply Hempty; lia].
    cbn [resolve]. rewrite Hv, Hreq. rewrite <- (drop_S _ _ _ Htok).
    rewrite (take_S_r _ _ Option_none) by (apply Hempty; lia).
    rewrite <- app_assoc. reflexivity.
  - (* no cell *)
    apply lookup_ge_None_1 in Hcell. apply lookup_lt_Some in Hst. lia.
  - (* no token *)
    rewrite (drop_ge args) by (apply lookup_ge_None_1; exact Htok).
    cbn [resolve].
    rewrite (empty_from options k _ Hlen Hempty) at 1. f_equal. f_equal.
    cbn [length]. rewrite length_drop. apply lookup_lt_Some in Hst. lia.
Qed.

Lemma compile_slots this args :
  (compile this args).1 = resolve (steps this) args.
Proof.
  unfold compile.
  rewrite (parseFrom_resolve this args _ 0 0) by
    (reflexivity || (unfold nones; apply length_replicate)
     || (intros; unfold nones; apply lookup_replicate_2; assumption)).
  reflexivity.
Qed.

(** X1: the slots that [compile] returns are those of the resolution
    written on the two lists: [resolve] of the steps and the tokens. *)
Theorem compile_resolve this args :
  (compile this args).1 = resolve (steps this) args.
Proof. apply compile_slots. Qed.

(** *** What [resolve] says about the slots *)

Lemma resolve_length (sts : list (ParseStep V)) : ∀ toks,
  length (resolve sts toks) = length sts.
Proof.
  induction sts as [|st sts IH]; intros toks; [reflexivity|].
  cbn [resolve]. unfold nones.
  destruct toks as [|tok toks]; [apply length_replicate|].
  destruct (firstValue (parsers st) tok); [simpl; rewrite IH; reflexivity|].
  destruct (required st); [apply length_replicate|simpl; rewrite IH; reflexivity].
Qed.

Lemma take_nones n m : n ≤ m → take n (nones (V:=V) m) = nones n.
Proof.
  intros H. unfold nones. rewrite take_replicate. f_equal. lia.
Qed.

Lemma resolve_snoc (sts : list (ParseStep V)) st : ∀ toks,
  take (length sts) (resolve (sts ++ [st]) toks) = resolve sts toks.
Proof.
  induction sts as [|st0 sts IH]; intros toks; [reflexivity|].
  cbn [app resolve length].
  destruct toks as [|tok toks].
  { apply take_nones. rewrite length_app. simpl. lia. }
  destruct (firstValue (parsers st0) tok).
  { cbn [take]. rewrite IH. reflexivity. }
  destruct (required st0).
  { apply take_nones. rewrite length_app. simpl. lia. }
  cbn [take]. rewrite IH. reflexivity.
Qed.

Lemma filled_nones n : filled (nones (V:=V) n) = 0.
Proof. unfold filled, nones. induction n; simpl; auto. Qed.

Lemma filled_resolve (sts : list (ParseStep V)) : ∀ toks,
  filled (resolve sts toks) ≤ length toks.
Proof.
  induction sts as [|st sts IH]; intros toks; [unfold filled; simpl; lia|].
  cbn [resolve].
  destruct toks as [|tok toks]; [rewrite filled_nones; lia|].
  destruct (firstValue (parsers st) tok).
  { specialize (IH toks). unfold filled in *. simpl. lia. }
  destruct (required st); [rewrite filled_nones; lia|].
  specialize (IH (tok :: toks)). unfold filled in *. simpl in *. lia.
Qed.

Lemma lookup_nones_some n s (v : V) : nones n !! s = Some (Option_some v) → False.
Proof.
  unfold nones. intros H. apply lookup_replicate_1 in H as [[=] _].
Qed.

Lemma resolve_filled_from (sts : list (ParseStep V)) : ∀ toks s v,
  resolve sts toks !! s = Some (Option_some v) →
  ∃ st j tok,
    sts !! s = Some st ∧ toks !! j = Some tok ∧ j ≤ s ∧
    firstValue (parsers st) tok = Some v.
Proof.
  induction sts as [|st sts IH]; intros toks s v; [discriminate|].
  cbn [resolve].
  destruct toks as [|tok toks]; [intros H; destruct (lookup_nones_some _ _ _ H)|].
  destruct (firstValue (parsers st) tok) as [v0|] eqn:Hv.
  - destruct s as [|s]; simpl.
    + intros [= ->]. exists st, 0, tok. repeat split; auto.
    + intros H. destruct (IH _ _ _ H) as (st' & j & tok' & ? & ? & ? & ?).
      exists st', (S j), tok'. repeat split; auto. lia.
  - destruct (required st); [intros H; destruct (lookup_nones_some _ _ _ H)|].
    destruct s as [|s]; simpl; [discriminate|].
    intros H. destruct (IH _ _ _ H) as (st' & j & tok' & ? & ? & ? & ?).
    exists st', j, tok'. repeat split; auto.
Qed.

Lemma resolve_all_hit (sts : list (ParseStep V)) : ∀ toks,
  (∀ i st, sts !! i = Some st →
     ∃ tok, toks !! i = Some tok ∧ is_Some (firstValue (parsers st) tok)) →
  resolve sts toks
  = zip_with (λ st tok, mkOption (firstValue (parsers st) tok)) sts toks.
Proof.
  induction sts as [|st sts IH]; intros toks Hall; [reflexivity|].
  destruct (Hall 0 st eq_refl) as (tok & Htok & [v Hv]).
  destruct toks as [|tok' toks]; [discriminate|]. injection Htok as ->.
  cbn [resolve zip_with]. rewrite Hv. f_equal.
  apply IH. intros i st' Hi. apply (Hall (S i) st' Hi).
Qed.

(** X2: adding a step to a descriptor, with [then] or with [thenIf], leaves
    what the earlier steps resolve to as it was, for every token sequence. *)
Theorem added_step_keeps_earlier (d : ArgumentDescriptor V) (condition : bool)
    (ps : Parsers V) (req : bool) args :
  take (length (steps d)) (compile (then_ d ps req) args).1 = (compile d args).1 ∧
  take (length (steps d)) (compile (thenIf d condition ps req) args).1
    = (compile d args).1.
Proof.
  rewrite !compile_slots. unfold thenIf, then_, push.
  destruct condition; cbn [steps]; rewrite !resolve_snoc; auto.
Qed.

(** X3: [compile] fills at most as many slots as there are tokens, and at
    most as many as there are steps. *)
Theorem filled_bounded this args :
  filled (compile this args).1 ≤ Nat.min (length args) (length (steps this)).
Proof.
  rewrite compile_slots.
  pose proof (filled_resolve (steps this) args).
  pose proof (resolve_length (steps this) args) as Hlen.
  assert (filled (resolve (steps this) args) ≤ length (resolve (steps this) args)).
  { unfold filled. apply List.filter_length_le. }
  lia.
Qed.

(** X4: a value in slot [s] is the first value that the parsers of step [s]
    make of one of the tokens, and that token is at position [s] or before. *)
Theorem filled_slot_origin this args s v :
  (compile this args).1 !! s = Some (Option_some v) →
  ∃ st j tok,
    steps this !! s = Some st ∧ args !! j = Some tok ∧ j ≤ s ∧
    firstValue (parsers st) tok = Some v.
Proof. rewrite compile_slots. apply resolve_filled_from. Qed.

(** X5: when every step finds a value in the token at its own position, every
    slot holds the first value its step makes of that token. *)
Theorem all_steps_hit this args :
  (∀ i st, steps this !! i = Some st →
     ∃ tok, args !! i = Some tok ∧ is_Some (firstValue (parsers st) tok)) →
  (compile this args).1
  = zip_with (λ st tok, mkOption (firstValue (parsers st) tok)) (steps this) args.
Proof. rewrite compile_slots. apply resolve_all_hit. Qed.

(** *** A hit, and the end of the tokens *)

Lemma tryParsers_hit k tok ps : ∀ i opt n p v,
  ps !! n = Some p →
  parse p tok = Some v →
  (∀ n' p', n' < n → ps !! n' = Some p' → parse p' tok = None) →
  tryParsers k i tok ps opt =
    (true, Option_some v,
     flat_map (λ x, [EParse k x tok; ESet k None]) (seq i n)
       ++ [EParse k (i + n) tok; ESet k (Some v)]).
Proof.
  induction ps as [|p0 ps IH]; intros i opt n p v Hn Hp Hearlier; [discriminate|].
  destruct n as [|n]; simpl in Hn |- *.
  - injection Hn as ->. rewrite Hp. rewrite Nat.add_0_r. reflexivity.
  - rewrite (Hearlier 0 p0) by (lia || reflexivity). simpl.
    rewrite (IH (S i) _ n p v); auto.
    + replace (i + S n) with (S (i + n)) by lia. reflexivity.
    + intros n' p' Hn' Hp'. apply (Hearlier (S n') p'); [lia | exact Hp'].
Qed.

(** X6: when resolution reaches a step and parser [n] of the step is the
    first to make a value of the current token, the parsers up to that one
    are asked, the later ones are not, the value ends up in the slot of the
    step, and the run goes on with the next step at the next token. *)
Theorem hit_takes_token this args k j step tok n p v :
  In (ECall k j) (compile this args).2 →
  steps this !! k = Some step →
  args !! j = Some tok →
  parsers step !! n = Some p →
  parse p tok = Some v →
  (∀ n' p', n' < n → parsers step !! n' = Some p' → parse p' tok = None) →
  ∃ pre options post,
    compile this args =
      after (pre ++ ECall k j ::
               flat_map (λ x, [EParse k x tok; ESet k None]) (seq 0 n)
               ++ [EParse k n tok; ESet k (Some v)])
        (parseFrom this args (S k) (S j) options) ∧
    (parseFrom this args (S k) (S j) options).2 = ECall (S k) (S j) :: post ∧
    (compile this args).1 !! k = Some (Option_some v).
Proof.
  intros Hin Hst Htok Hn Hp Hearlier.
  destruct (compile_reach _ _ _ _ Hin) as (pre & options & H1 & H2 & Hlen & Hempty & _).
  pose proof (lookup_lt_Some _ _ _ Hst) as Hk.
  assert (parseFrom this args k j options =
          after (ECall k j ::
                   flat_map (λ x, [EParse k x tok; ESet k None]) (seq 0 n)
                   ++ [EParse k n tok; ESet k (Some v)])
            (parseFrom this args (S k) (S j) (<[k := Option_some v]> options)))
    as Heq.
  { rewrite parseFrom_body, Hst, Htok, (Hempty k) by lia.
    rewrite (tryParsers_hit k tok (parsers step) 0 _ n p v Hn Hp Hearlier).
    reflexivity. }
  rewrite Heq in H1, H2. cbn [after fst snd] in H1, H2.
  destruct (parseFrom_log_head this args (S k) (S j) (<[k := Option_some v]> options))
    as [post Hpost].
  exists pre, (<[k := Option_some v]> options), post.
  split.
  { rewrite (surjective_pairing (compile this args)), H1, H2.
    unfold after. rewrite <- app_assoc. reflexivity. }
  split; [exact Hpost|].
  rewrite H1.
  rewrite (parseFrom_resolve this args (length (steps this) - S k) (S k) (S j));
    [| reflexivity | |].
  - rewrite lookup_app_l by (rewrite length_take, length_insert; lia).
    rewrite lookup_take_lt by lia. apply list_lookup_insert_eq. lia.
  - rewrite length_insert. exact Hlen.
  - intros i ? ?. rewrite list_lookup_insert_ne by lia. apply Hempty; lia.
Qed.

(** X7: when resolution reaches a frame for which no token is left, the run
    ends there without asking a parser, and the slots from that step on are
    empty; without any token at all every slot is empty. *)
Theorem tokens_run_out this args :
  compile this [] = (nones (length (steps this)), [ECall 0 0]) ∧
  ∀ k j,
    In (ECall k j) (compile this args).2 →
    length args ≤ j →
    ∃ pre slots,
      compile this args = (slots, pre ++ [ECall k j]) ∧
      ∀ i, k ≤ i → i < length (steps this) → slots !! i = Some Option_none.
Proof.
  split.
  { unfold compile. rewrite parseFrom_body. destruct (steps this !! 0); reflexivity. }
  intros k j Hin Hj.
  destruct (compile_reach _ _ _ _ Hin) as (pre & options & H1 & H2 & _ & Hempty & _).
  assert (parseFrom this args k j options = (options, [ECall k j])) as Heq.
  { rewrite parseFrom_body, (lookup_ge_None_2 args j Hj).
    destruct (steps this !! k); reflexivity. }
  rewrite Heq in H1, H2. cbn [fst snd] in H1, H2.
  exists pre, options. split; [|exact Hempty].
  rewrite (surjective_pairing (compile this args)), H1, H2. reflexivity.
Qed.


End ResolutionFacts.

Section ArgumentParserFacts.

Context {V : Type}.
Implicit Types (ps : list (ArgumentValueParser V)) (results : list (Option V)).
Implicit Types (this : ArgumentParser.t) (σ : Store).

(** *** The two applicators *)

Lemma parse_loop_result ps : ∀ i value,
  bool_decide (is_Some (ArgumentParser.parse_loop i value ps).1) = anyMatches ps value.
Proof.
  induction ps as [|p ps IH]; intros i value; simpl.
  - reflexivity.
  - destruct (parse p value) as [v|] eqn:Hp; simpl.
    + reflexivity.
    + specialize (IH (S i) value).
      destruct (ArgumentParser.parse_loop (S i) value ps) as [r evs].
      exact IH.
Qed.

Lemma existsb_isSome_lookup results i (v : V) :
  results !! i = Some (Option_some v) → existsb isSome results = true.
Proof.
  revert i. induction results as [|c results IH]; intros [|i]; simpl; try discriminate.
  - intros [= ->]. reflexivity.
  - intros H. rewrite (IH _ H). apply orb_true_r.
Qed.

Lemma existsb_isSome_nones n : existsb (isSome (V:=V)) (nones n) = false.
Proof. induction n; simpl; auto. Qed.

(** The loop of [parseAny] when parser [n] of the remaining ones is the
    first that yields a value: the parsers up to that one are asked in order,
    the cell of that one is set, and the loop is left. *)
Lemma parseAny_loop_first ps : ∀ i value results n p v,
  ps !! n = Some p →
  parse p value = Some v →
  (∀ n' p', n' < n → ps !! n' = Some p' → parse p' value = None) →
  i + n < length results →
  (∀ i', i ≤ i' → i' < i + n → results !! i' = Some Option_none) →
  ArgumentParser.parseAny_loop i value ps results =
    (<[i + n := Option_some v]> results,
     map (λ x, EParse 0 x value) (seq i n)
       ++ [EParse 0 (i + n) value; ESet (i + n) (Some v)]).
Proof.
  induction ps as [|p0 ps IH]; intros i value results n p v Hn Hp Hearlier Hlen Hempty;
    [discriminate|].
  destruct n as [|n]; simpl in Hn |- *.
  - injection Hn as ->. rewrite Hp. rewrite Nat.add_0_r in *.
    rewrite list_lookup_alter_eq.
    destruct (lookup_lt_is_Some_2 results i Hlen) as [c ->]. simpl.
    rewrite list_insert_alter. reflexivity.
  - rewrite (Hearlier 0 p0) by (lia || reflexivity).
    rewrite (Hempty i) by lia. simpl.
    rewrite (IH (S i) value results n p v); auto.
    + unfold after. simpl. replace (i + S n) with (S (i + n)) by lia. reflexivity.
    + intros n' p' Hn' Hp'. apply (Hearlier (S n') p'); [lia | exact Hp'].
    + lia.
    + intros i' ? ?. apply Hempty; lia.
Qed.

(** The loop of [parseAny] when no parser yields a value. *)
Lemma parseAny_loop_none ps : ∀ i value results,
  (∀ p, p ∈ ps → parse p value = None) →
  (∀ i', i ≤ i' → i' < i + length ps → results !! i' = Some Option_none) →
  ArgumentParser.parseAny_loop i value ps results =
    (results, map (λ x, EParse 0 x value) (seq i (length ps))).
Proof.
  induction ps as [|p0 ps IH]; intros i value results Hmiss Hempty; [reflexivity|].
  simpl in *. rewrite (Hmiss p0) by left.
  rewrite (Hempty i) by lia. simpl.
  rewrite IH; [reflexivity | |].
  - intros p Hp. apply Hmiss. right. exact Hp.
  - intros i' ? ?. apply Hempty; lia.
Qed.

(** Either no parser matches, or there is a first one that does. *)
Lemma first_match ps value :
  (anyMatches ps value = false ∧ ∀ p, p ∈ ps → parse p value = None) ∨
  (anyMatches ps value = true ∧ ∃ n p v,
     ps !! n = Some p ∧ parse p value = Some v ∧
     ∀ n' p', n' < n → ps !! n' = Some p' → parse p' value = None).
Proof.
  induction ps as [|p0 ps IH]; simpl.
  - left. split; [reflexivity|]. intros p Hp. apply elem_of_nil in Hp as [].
  - destruct (parse p0 value) as [v|] eqn:Hp0.
    + right. rewrite bool_decide_eq_true_2 by eauto. split; [reflexivity|].
      exists 0, p0, v. repeat split; auto. intros; lia.
    + rewrite (bool_decide_eq_false_2 (is_Some None)) by (intros [? [=]]). simpl.
      destruct IH as [[Hany Hmiss]|[Hany (n & p & v & Hn & Hp & Hearlier)]].
      * left. split; [exact Hany|].
        intros p Hp. apply elem_of_cons in Hp as [->|Hp]; auto.
      * right. split; [exact Hany|]. exists (S n), p, v. repeat split; auto.
        intros [|n'] p' Hn' Hp'; simpl in Hp'.
        -- injection Hp' as <-. exact Hp0.
        -- apply (Hearlier n' p'); [lia | exact Hp'].
Qed.

Lemma parseAny_result ps value :
  existsb isSome (ArgumentParser.parseAny (Some value) ps).1 = anyMatches ps value.
Proof.
  unfold ArgumentParser.parseAny.
  destruct (first_match ps value)
    as [[-> Hmiss]|[-> (n & p & v & Hn & Hp & Hearlier)]].
  - rewrite parseAny_loop_none; auto.
    + apply existsb_isSome_nones.
    + intros i' _ Hi'. apply lookup_replicate_2. lia.
  - pose proof (lookup_lt_Some _ _ _ Hn) as Hlt.
    rewrite (parseAny_loop_first ps 0 value _ n p v); auto.
    + simpl. apply (existsb_isSome_lookup _ n v).
      apply list_lookup_insert_eq. unfold nones. rewrite length_replicate. exact Hlt.
    + unfold nones. rewrite length_replicate. exact Hlt.
    + intros i' _ Hi'. apply lookup_replicate_2. lia.
Qed.

(** C4: in collect-all mode the parsers are asked in order up to the first
    one that yields a value; its slot is filled and every other slot, the
    later ones too, stays empty, whatever the later parsers would have said;
    without a token all slots are empty and no parser is asked.  The public
    operations hand their token to [parseAny] and return what it returns. *)
Theorem parseAny_first_success ps :
  ArgumentParser.parseAny None ps = (nones (length ps), []) ∧
  (∀ value n p v,
     ps !! n = Some p →
     parse p value = Some v →
     (∀ n' p', n' < n → ps !! n' = Some p' → parse p' value = None) →
     ArgumentParser.parseAny (Some value) ps =
       (<[n := Option_some v]> (nones (length ps)),
        map (λ x, EParse 0 x value) (seq 0 n) ++ [EParse 0 n value; ESet n (Some v)])) ∧
  (∀ this σ index seperator,
     let buf := ArgumentParser.buffer this σ in
     (ArgumentParser.getAny this index ps σ).1 = ArgumentParser.parseAny (buf !! index) ps ∧
     (ArgumentParser.shiftAny this ps σ).1 = ArgumentParser.parseAny (head buf) ps ∧
     (ArgumentParser.shiftIfAny this ps σ).1 = ArgumentParser.parseAny (buf !! 0) ps ∧
     (ArgumentParser.popAny this ps σ).1 = ArgumentParser.parseAny (last buf) ps ∧
     (ArgumentParser.joinAny this ps seperator σ).1
       = ArgumentParser.parseAny (Some (String.concat seperator buf)) ps).
Proof.
  split; [reflexivity|]. split.
  - intros value n p v Hn Hp Hearlier.
    pose proof (lookup_lt_Some _ _ _ Hn) as Hlt.
    unfold ArgumentParser.parseAny.
    rewrite (parseAny_loop_first ps 0 value _ n p v); auto.
    + unfold nones. rewrite length_replicate. exact Hlt.
    + intros i' _ Hi'. apply lookup_replicate_2. lia.
  - intros this σ index seperator buf.
    repeat split.
    unfold ArgumentParser.shiftIfAny, bind, Array_get, ret. simpl.
    destruct (existsb _ _); reflexivity.
Qed.

(** *** The store *)

Lemma deref_insert_eq σ l a :
  deref (<[l := a]> σ) l = if decide (l < length σ) then a else [].
Proof.
  unfold deref. case_decide.
  - rewrite list_lookup_insert_eq by assumption. reflexivity.
  - rewrite list_insert_ge by lia. rewrite lookup_ge_None_2 by lia. reflexivity.
Qed.

Lemma deref_insert_ne σ l l' a : l ≠ l' → deref (<[l := a]> σ) l' = deref σ l'.
Proof. intros H. unfold deref. rewrite list_lookup_insert_ne by exact H. reflexivity. Qed.

Lemma deref_dangling σ l : length σ ≤ l → deref σ l = [].
Proof. intros H. unfold deref. rewrite lookup_ge_None_2 by exact H. reflexivity. Qed.

Lemma insert_deref σ l : <[l := deref σ l]> σ = σ.
Proof.
  apply list_insert_id'. intros H.
  destruct (lookup_lt_is_Some_2 σ l H) as [a Ha].
  unfold deref. rewrite Ha. reflexivity.
Qed.

(** A taking operation writes the parser's own array and nothing else. *)
Lemma take_store op this ps σ :
  ArgumentParser.take op this ps σ
  = <[ArgumentParser.args this := taken op ps (ArgumentParser.buffer this σ)]> σ.
Proof.
  unfold ArgumentParser.buffer.
  destruct op; try reflexivity; simpl.
  - unfold ArgumentParser.shiftIf, bind, Array_get, Array_remove, ret. simpl.
    destruct (deref σ (ArgumentParser.args this)) as [|tok rest] eqn:Hbuf; simpl.
    + rewrite <- Hbuf. symmetry. apply insert_deref.
    + rewrite parse_loop_result. destruct (anyMatches ps tok); simpl.
      * rewrite Hbuf. reflexivity.
      * rewrite <- Hbuf. symmetry. apply insert_deref.
  - unfold ArgumentParser.shiftIfAny, bind, Array_get, Array_remove, ret.
    cbn [fst snd].
    destruct (deref σ (ArgumentParser.args this)) as [|tok rest] eqn:Hbuf;
      cbn [lookup list_lookup taken].
    + unfold ArgumentParser.parseAny. cbn [fst]. rewrite existsb_isSome_nones.
      cbn [snd]. rewrite <- Hbuf. symmetry. apply insert_deref.
    + rewrite parseAny_result. destruct (anyMatches ps tok); simpl.
      * rewrite Hbuf. reflexivity.
      * rewrite <- Hbuf. symmetry. apply insert_deref.
Qed.

Lemma taken_nil op ps : taken op ps [] = [].
Proof. destruct op; reflexivity. Qed.

Lemma take_buffer op this ps σ :
  ArgumentParser.buffer this (ArgumentParser.take op this ps σ)
  = taken op ps (ArgumentParser.buffer this σ).
Proof.
  rewrite take_store. unfold ArgumentParser.buffer.
  rewrite deref_insert_eq. case_decide; [reflexivity|].
  rewrite deref_dangling by lia. symmetry. apply taken_nil.
Qed.

(** C9: [shiftIf] and [shiftIfAny] take the front token out of the buffer
    exactly when some parser yields a value on it, and leave the buffer as it
    is otherwise; [shift] and [shiftAny] take the front token, [pop] and
    [popAny] the back token, whatever the parsers say. *)
Theorem take_consumption this ps σ :
  let buf := ArgumentParser.buffer this σ in
  let conditional :=
    match buf with
    | [] => []
    | tok :: rest => if anyMatches ps tok then rest else tok :: rest
    end in
  ArgumentParser.buffer this (ArgumentParser.shiftIf this ps σ).2 = conditional ∧
  ArgumentParser.buffer this (ArgumentParser.shiftIfAny this ps σ).2 = conditional ∧
  ArgumentParser.buffer this (ArgumentParser.shift this ps σ).2 = tail buf ∧
  ArgumentParser.buffer this (ArgumentParser.shiftAny this ps σ).2 = tail buf ∧
  ArgumentParser.buffer this (ArgumentParser.pop this ps σ).2 = removelast buf ∧
  ArgumentParser.buffer this (ArgumentParser.popAny this ps σ).2 = removelast buf.
Proof.
  intros buf conditional.
  pose proof (λ op, take_buffer op this ps σ) as H.
  split; [exact (H ArgumentParser.ShiftIf)|].
  split; [exact (H ArgumentParser.ShiftIfAny)|].
  split; [exact (H ArgumentParser.Shift)|].
  split; [exact (H ArgumentParser.ShiftAny)|].
  split; [exact (H ArgumentParser.Pop)|exact (H ArgumentParser.PopAny)].
Qed.

(** C6, amended: a taking operation changes the parser's own array and no
    other array of the store.  That array is allocated by the constructor of
    the parser, as a copy of the array it is given, so neither that array nor
    the default tokens of a descriptor made from another array change.  A
    descriptor made by [describe] keeps the parser's own array, so its
    default tokens are the parser's buffer, also after a taking operation. *)
Theorem takers_touch_own_buffer_only (op : ArgumentParser.taker) this ps σ :
  (∀ l, l ≠ ArgumentParser.args this →
        deref (ArgumentParser.take op this ps σ) l = deref σ l) ∧
  (∀ d : ArgumentDescriptor V,
     defaultTokens d (ArgumentParser.take op this ps σ)
     = if decide (defaultArgs d = ArgumentParser.args this)
       then ArgumentParser.buffer this (ArgumentParser.take op this ps σ)
       else defaultTokens d σ) ∧
  ArgumentParser.describe (V:=V) this σ
  = ({| steps := []; defaultArgs := ArgumentParser.args this |}, σ) ∧
  (∀ input σ0,
     let made := ArgumentParser.new (Some input) σ0 in
     length σ0 ≤ ArgumentParser.args made.1 ∧
     ArgumentParser.buffer made.1 made.2 = deref σ0 input ∧
     ∀ l, l < length σ0 → deref made.2 l = deref σ0 l).
Proof.
  split; [|split; [|split]].
  - intros l Hl. rewrite take_store. apply deref_insert_ne. congruence.
  - intros d. unfold defaultTokens, ArgumentParser.buffer. case_decide as Hd.
    + rewrite Hd. reflexivity.
    + rewrite take_store. apply deref_insert_ne. congruence.
  - reflexivity.
  - intros input σ0 made. subst made.
    unfold ArgumentParser.new, bind, alloc, Array_isEmpty, Array_spread, alloc, ret.
    assert (deref (σ0 ++ [[]]) input = deref σ0 input) as Hsame.
    { unfold deref. destruct (decide (input < length σ0)).
      - rewrite lookup_app_l by assumption. reflexivity.
      - rewrite lookup_app_r by lia. rewrite (lookup_ge_None_2 σ0) by lia.
        destruct (input - length σ0) as [|[|?]]; reflexivity. }
    assert (∀ l (more : Store), l < length σ0 → deref (σ0 ++ more) l = deref σ0 l)
      as Hold.
    { intros l more Hl. unfold deref. rewrite lookup_app_l by exact Hl. reflexivity. }
    cbn beta iota zeta. rewrite Hsame.
    destruct (bool_decide (deref σ0 input = [])) eqn:Hempty;
      [apply bool_decide_eq_true_1 in Hempty|clear Hempty];
      cbn [fst snd ArgumentParser.args].
    + split; [lia|]. split; [|intros l Hl; apply Hold; exact Hl].
      rewrite Hempty. unfold ArgumentParser.buffer, deref. cbn [ArgumentParser.args].
      rewrite lookup_app_r by lia. rewrite Nat.sub_diag. reflexivity.
    + rewrite length_app, Hsame. simpl. split; [lia|].
      split; [|intros l Hl; rewrite <- app_assoc; apply Hold; exact Hl].
      unfold ArgumentParser.buffer. unfold deref at 1. cbn [ArgumentParser.args].
      rewrite lookup_app_r by (rewrite length_app; simpl; lia).
      rewrite length_app. simpl. rewrite Nat.sub_diag. reflexivity.
Qed.

(** *** First-match mode *)

Lemma parse_loop_firstValue ps : ∀ i tok,
  (ArgumentParser.parse_loop i tok ps).1 = firstValue ps tok.
Proof.
  induction ps as [|p ps IH]; intros i tok; simpl; [reflexivity|].
  destruct (parse p tok); [reflexivity|].
  specialize (IH (S i) tok).
  destruct (ArgumentParser.parse_loop (S i) tok ps). exact IH.
Qed.

Lemma parse_loop_first ps : ∀ i tok n p v,
  ps !! n = Some p →
  parse p tok = Some v →
  (∀ n' p', n' < n → ps !! n' = Some p' → parse p' tok = None) →
  ArgumentParser.parse_loop i tok ps
  = (Some v, map (λ x, EParse 0 x tok) (seq i (S n))).
Proof.
  induction ps as [|p0 ps IH]; intros i tok n p v Hn Hp Hearlier; [discriminate|].
  destruct n as [|n]; simpl in Hn |- *.
  - injection Hn as ->. rewrite Hp. reflexivity.
  - rewrite (Hearlier 0 p0) by (lia || reflexivity).
    rewrite (IH (S i) tok n p v); auto.
    intros n' p' Hn' Hp'. apply (Hearlier (S n') p'); [lia | exact Hp'].
Qed.

Lemma parse_loop_none ps : ∀ i tok,
  (∀ p, p ∈ ps → parse p tok = None) →
  ArgumentParser.parse_loop i tok ps
  = (None, map (λ x, EParse 0 x tok) (seq i (length ps))).
Proof.
  induction ps as [|p0 ps IH]; intros i tok Hmiss; [reflexivity|].
  simpl. rewrite (Hmiss p0) by left.
  rewrite IH; [reflexivity|]. intros p Hp. apply Hmiss. right. exact Hp.
Qed.

(** X8: in first-match mode the parsers are asked in order up to the first
    one that makes a value of the token, and that value is returned; when none
    does, all are asked and nothing is returned; without a token nothing is
    returned and no parser is asked.  The value is the one a step of a
    descriptor with the same parsers stores for that token. *)
Theorem parse_first_match ps :
  ArgumentParser.parse None ps = (None, []) ∧
  (∀ tok, (ArgumentParser.parse (Some tok) ps).1 = firstValue ps tok) ∧
  (∀ tok n p v,
     ps !! n = Some p →
     parse p tok = Some v →
     (∀ n' p', n' < n → ps !! n' = Some p' → parse p' tok = None) →
     ArgumentParser.parse (Some tok) ps
     = (Some v, map (λ x, EParse 0 x tok) (seq 0 (S n)))) ∧
  (∀ tok,
     (∀ p, p ∈ ps → parse p tok = None) →
     ArgumentParser.parse (Some tok) ps
     = (None, map (λ x, EParse 0 x tok) (seq 0 (length ps)))).
Proof.
  split; [reflexivity|]. split; [intros tok; apply parse_loop_firstValue|].
  split.
  - intros tok n p v. apply parse_loop_first.
  - intros tok. apply parse_loop_none.
Qed.

(** *** Taking tokens *)

Lemma shiftIf_result this ps σ :
  (ArgumentParser.shiftIf this ps σ).1
  = ArgumentParser.parse (ArgumentParser.buffer this σ !! 0) ps.
Proof.
  unfold ArgumentParser.shiftIf, bind, Array_get, ret. cbn [fst snd].
  destruct (bool_decide _); reflexivity.
Qed.

Lemma shiftIfAny_result this ps σ :
  (ArgumentParser.shiftIfAny this ps σ).1
  = ArgumentParser.parseAny (ArgumentParser.buffer this σ !! 0) ps.
Proof.
  unfold ArgumentParser.shiftIfAny, bind, Array_get, ret. cbn [fst snd].
  destruct (existsb _ _); reflexivity.
Qed.

(** X9: what [shiftIf] and [shiftIfAny] return tells whether they took the
    token: a value is returned exactly when the buffer got shorter. *)
Theorem conditional_take_reports this ps σ :
  let before := length (ArgumentParser.buffer this σ) in
  (is_Some (ArgumentParser.shiftIf this ps σ).1.1 ↔
   length (ArgumentParser.buffer this (ArgumentParser.shiftIf this ps σ).2) < before) ∧
  (existsb isSome (ArgumentParser.shiftIfAny this ps σ).1.1 = true ↔
   length (ArgumentParser.buffer this (ArgumentParser.shiftIfAny this ps σ).2) < before).
Proof.
  intros before. subst before.
  rewrite shiftIf_result, shiftIfAny_result.
  pose proof (take_buffer ArgumentParser.ShiftIf this ps σ) as H1.
  pose proof (take_buffer ArgumentParser.ShiftIfAny this ps σ) as H2.
  cbn [ArgumentParser.take] in H1, H2. rewrite H1, H2. cbn [taken].
  destruct (ArgumentParser.buffer this σ) as [|tok rest]; cbn [lookup list_lookup].
  - split; split; simpl; try lia.
    + intros [? [=]].
    + rewrite existsb_isSome_nones. discriminate.
  - rewrite parseAny_result.
    pose proof (parse_loop_result ps 0 tok) as Hp. cbn [ArgumentParser.parse].
    destruct (anyMatches ps tok); simpl; split; split; try lia; try discriminate; auto.
    + intros _. apply bool_decide_eq_true_1 in Hp. exact Hp.
    + intros H. apply bool_decide_eq_false_1 in Hp. contradiction.
Qed.

Lemma tail_drop {A} (l : list A) n : tail (drop n l) = drop (S n) l.
Proof.
  revert l. induction n as [|n IH]; intros [|x l]; simpl; auto.
Qed.

Lemma removelast_take {A} (l : list A) m :
  removelast (take m l) = take (Nat.min m (length l) - 1) l.
Proof.
  rewrite removelast_firstn_len, length_take, take_take. f_equal. lia.
Qed.

(** X10: [n] times [shift] leave the buffer without its first [n] tokens and
    [n] times [pop] leave it without its last [n] tokens, whatever the
    parsers make of them. *)
Theorem repeated_takes this ps σ n :
  ArgumentParser.buffer this
    (Nat.iter n (ArgumentParser.take ArgumentParser.Shift this ps) σ)
  = drop n (ArgumentParser.buffer this σ) ∧
  ArgumentParser.buffer this
    (Nat.iter n (ArgumentParser.take ArgumentParser.Pop this ps) σ)
  = take (length (ArgumentParser.buffer this σ) - n) (ArgumentParser.buffer this σ).
Proof.
  induction n as [|n [IH1 IH2]].
  - simpl. split; [reflexivity|]. rewrite Nat.sub_0_r. symmetry. apply firstn_all.
  - rewrite !Nat.iter_succ, !take_buffer, IH1, IH2. cbn [taken].
    split; [apply tail_drop|]. rewrite removelast_take. f_equal. lia.
Qed.

Lemma new_fresh input σ0 :
  ∃ l extra,
    ArgumentParser.new (Some input) σ0 = ({| ArgumentParser.args := l |}, σ0 ++ extra) ∧
    length σ0 ≤ l ∧ l < length (σ0 ++ extra) ∧
    (input < length σ0 → deref (σ0 ++ extra) l = deref σ0 input).
Proof.
  unfold ArgumentParser.new, bind, alloc, Array_isEmpty, Array_spread, alloc, ret.
  cbn beta iota zeta.
  destruct (bool_decide (deref (σ0 ++ [[]]) input = [])) eqn:Hempty.
  - exists (length σ0), [[]]. split; [reflexivity|].
    rewrite length_app. simpl. split; [lia|]. split; [lia|].
    intros Hin. apply bool_decide_eq_true_1 in Hempty.
    unfold deref in *. rewrite lookup_app_l in Hempty by exact Hin.
    rewrite Hempty. rewrite lookup_app_r by lia. rewrite Nat.sub_diag. reflexivity.
  - exists (length (σ0 ++ [[]])), [[]; deref (σ0 ++ [[]]) input].
    split; [rewrite <- app_assoc; reflexivity|].
    rewrite !length_app. simpl. split; [lia|]. split; [lia|].
    intros Hin. unfold deref.
    rewrite (lookup_app_r σ0) by lia.
    replace (length σ0 + 1 - length σ0) with 1 by lia. simpl.
    rewrite lookup_app_l by exact Hin. reflexivity.
Qed.

Lemma deref_app_l σ (extra : Store) l : l < length σ → deref (σ ++ extra) l = deref σ l.
Proof. intros H. unfold deref. rewrite lookup_app_l by exact H. reflexivity. Qed.

(** X11: two parsers made from the same array each have a copy of their
    own: taking tokens from one of them changes neither the buffer of the
    other nor the array they were made from. *)
Theorem parsers_are_independent (op : ArgumentParser.taker) ps input σ0 :
  input < length σ0 →
  let made1 := ArgumentParser.new (Some input) σ0 in
  let made2 := ArgumentParser.new (Some input) made1.2 in
  let σ := ArgumentParser.take op made1.1 ps made2.2 in
  ArgumentParser.buffer made1.1 made2.2 = deref σ0 input ∧
  ArgumentParser.buffer made2.1 σ = deref σ0 input ∧
  deref σ input = deref σ0 input.
Proof.
  intros Hin made1 made2 σ. subst made1 made2 σ.
  destruct (new_fresh input σ0) as (l1 & e1 & -> & Hl1 & Hl1' & Hb1).
  cbn [fst snd].
  assert (input < length (σ0 ++ e1)) as Hin1 by (rewrite length_app; lia).
  destruct (new_fresh input (σ0 ++ e1)) as (l2 & e2 & -> & Hl2 & Hl2' & Hb2).
  cbn [fst snd]. rewrite take_store.
  unfold ArgumentParser.buffer. cbn [ArgumentParser.args].
  rewrite !deref_insert_ne by lia.
  rewrite (deref_app_l (σ0 ++ e1) e2 l1) by exact Hl1'.
  rewrite (Hb2 Hin1), (Hb1 Hin).
  rewrite (deref_app_l (σ0 ++ e1) e2 input) by exact Hin1.
  rewrite !(deref_app_l σ0 e1 input) by exact Hin. auto.
Qed.

(** *** From the parser to a descriptor and back to the tokens *)

Lemma foldl_then (calls : list (Parsers V * bool)) : ∀ d : ArgumentDescriptor V,
  steps (foldl (λ d call, then_ d call.1 call.2) d calls)
  = steps d
    ++ map (λ call, {| parsers := resolveParsers call.1; required := call.2 |}) calls ∧
  defaultArgs (foldl (λ d call, then_ d call.1 call.2) d calls) = defaultArgs d.
Proof.
  induction calls as [|call calls IH]; intros d; cbn [foldl map].
  - rewrite app_nil_r. auto.
  - destruct (IH (then_ d call.1 call.2)) as [-> ->].
    unfold then_, push. cbn [steps defaultArgs]. rewrite <- app_assoc. auto.
Qed.

(** X19: a descriptor made by [describe] and extended by any number of
    [then] calls resolves, when [compile] is called without arguments, the
    tokens that the buffer of the parser holds at that moment, against the
    steps in the order of the calls, and leaves the store as it is. *)
Theorem described_resolves_buffer this (calls : list (Parsers V * bool)) σ σ' :
  let d :=
    foldl (λ d call, then_ d call.1 call.2) (ArgumentParser.describe this σ).1 calls in
  (compileIn d None σ').1.1
  = resolve
      (map (λ call, {| parsers := resolveParsers call.1; required := call.2 |}) calls)
      (ArgumentParser.buffer this σ') ∧
  (compileIn d None σ').2 = σ'.
Proof.
  intros d. subst d. unfold compileIn. cbn [fst snd default].
  split; [|reflexivity].
  rewrite compile_slots.
  destruct (foldl_then calls (ArgumentParser.describe this σ).1) as [-> ->].
  reflexivity.
Qed.

(** X20: the first-match operations return the first value that the parsers
    make of their token: [get] of the token at the index, [shift] and
    [shiftIf] of the front token, [pop] of the back token; they return
    nothing when there is no such token. *)
Theorem first_match_results this ps σ index :
  let buf := ArgumentParser.buffer this σ in
  let value_of (token : option string) : option V :=
    match token with Some tok => firstValue ps tok | None => None end in
  (ArgumentParser.get this index ps σ).1.1 = value_of (buf !! index) ∧
  (ArgumentParser.shift this ps σ).1.1 = value_of (head buf) ∧
  (ArgumentParser.shiftIf this ps σ).1.1 = value_of (head buf) ∧
  (ArgumentParser.pop this ps σ).1.1 = value_of (last buf).
Proof.
  intros buf value_of.
  assert (∀ token, (ArgumentParser.parse token ps).1 = value_of token) as H.
  { intros [tok|]; [apply parse_loop_firstValue | reflexivity]. }
  rewrite shiftIf_result.
  unfold ArgumentParser.get, ArgumentParser.shift, ArgumentParser.pop,
    bind, Array_get, Array_shift, Array_pop, ret. cbn [fst snd].
  rewrite !H. fold (ArgumentParser.buffer this σ). fold buf.
  repeat split. destruct buf; reflexivity.
Qed.

End ArgumentParserFacts.

Section CommanderFacts.

Implicit Types (this : Commander.t) (σ : Store).

(** What the handler throws goes through [try ... finally] and rejects the
    promise of [runExecutor]. *)
Lemma runExecutor_throw executor executorArgs σ σ' err :
  Commander.invoke executor executorArgs σ = (Commander.Throw err, σ') →
  Commander.runExecutor executor executorArgs σ = (Commander.Rejected err, σ').
Proof.
  intros H.
  unfold Commander.runExecutor, Commander.async, Commander.tryFinally, bind, ret.
  rewrite H. reflexivity.
Qed.

(** A handler that returns resolves the promise with [result !== false]. *)
Lemma runExecutor_return executor executorArgs σ σ' result :
  Commander.invoke executor executorArgs σ = (Commander.Normal result, σ') →
  Commander.runExecutor executor executorArgs σ
  = (Commander.Resolved (Commander.isnt_false result), σ').
Proof.
  intros H.
  unfold Commander.runExecutor, Commander.async, Commander.tryFinally, bind, ret.
  rewrite H. reflexivity.
Qed.

(** The hook is not called for a rejected promise. *)
Lemma thenHook_rejected this command executorArgs err σ :
  Commander.thenHook this command executorArgs (Commander.Rejected err) σ
  = ([Commander.UnhandledRejection err], σ).
Proof. reflexivity. Qed.

(** C7, on the code: the handler of the registered command "hurt" throws;
    the caller gets [EXECUTED], the hook is not called, and what was thrown
    is left as the rejection of a promise that nothing handles. *)
Theorem raising_handler_skips_hook :
  (Commander.executeName (Commander.registerCommand hooked hurt raising)
     1 "hurt" 0 [["bob"]]).1
  = (EXECUTED, [Commander.UnhandledRejection (Commander.VString "boom")]).
Proof. vm_compute. reflexivity. Qed.

(** A handler that returns [false] does reach the hook, as [false]. *)
Lemma declining_handler_reaches_hook :
  ∃ command executorArgs,
    (Commander.executeName (Commander.registerCommand hooked hurt declining)
       1 "dmg" 0 [["bob"]]).1
    = (EXECUTED,
       [Commander.HookCalled command (Commander.VBoolean false) executorArgs]).
Proof. eexists _, _. vm_compute. reflexivity. Qed.

(** *** The command map *)

Ltac names_solver :=
  solve
    [ apply not_elem_of_nil
    | apply elem_of_cons; auto
    | intros [?|?]%elem_of_cons;
      [ congruence
      | first [contradiction | eapply not_elem_of_nil; eassumption] ] ].

Lemma lookup_foldl_insert (d : Commander.CommandDescriptor) (l : list string) :
  ∀ (m : gmap string Commander.CommandDescriptor) k,
    foldl (λ m a, <[a := d]> m) m l !! k
    = if decide (k ∈ l) then Some d else m !! k.
Proof.
  induction l as [|a l IH]; intros m k; cbn [foldl].
  - rewrite decide_False by names_solver. reflexivity.
  - rewrite IH. destruct (decide (k ∈ l)) as [Hl|Hl].
    + rewrite decide_True by names_solver. reflexivity.
    + destruct (decide (k = a)) as [->|Hne].
      * rewrite lookup_insert_eq, decide_True by names_solver. reflexivity.
      * rewrite lookup_insert_ne by congruence.
        rewrite decide_False by names_solver. reflexivity.
Qed.

Lemma lookup_foldl_delete (l : list string) :
  ∀ (m : gmap string Commander.CommandDescriptor) k,
    foldl (λ m a, delete a m) m l !! k
    = if decide (k ∈ l) then None else m !! k.
Proof.
  induction l as [|a l IH]; intros m k; cbn [foldl].
  - rewrite decide_False by names_solver. reflexivity.
  - rewrite IH. destruct (decide (k ∈ l)) as [Hl|Hl].
    + rewrite decide_True by names_solver. reflexivity.
    + destruct (decide (k = a)) as [->|Hne].
      * rewrite lookup_delete_eq, decide_True by names_solver. reflexivity.
      * rewrite lookup_delete_ne by congruence.
        rewrite decide_False by names_solver. reflexivity.
Qed.

Lemma registerCommand_lookup this config executor name :
  Commander.commands (Commander.registerCommand this config executor) !! name
  = if decide (name ∈ commandNames config)
    then Some (registered this config executor)
    else Commander.commands this !! name.
Proof.
  unfold Commander.registerCommand, commandNames, registered. cbn [Commander.commands].
  destruct (Commander.aliases config) as [l|]; cbn [default].
  - rewrite lookup_foldl_insert.
    destruct (decide (name ∈ l)) as [Hl|Hl].
    + rewrite decide_True by names_solver. reflexivity.
    + destruct (decide (name = Commander.identifier config)) as [->|Hne].
      * rewrite lookup_insert_eq, decide_True by names_solver. reflexivity.
      * rewrite lookup_insert_ne by congruence.
        rewrite decide_False by names_solver. reflexivity.
  - destruct (decide (name = Commander.identifier config)) as [->|Hne].
    + rewrite lookup_insert_eq, decide_True by names_solver. reflexivity.
    + rewrite lookup_insert_ne by congruence.
      rewrite decide_False by names_solver. reflexivity.
Qed.

Lemma deregisterCommand_found this config d :
  Commander.commands this !! Commander.identifier config = Some d →
  (Commander.deregisterCommand this config).1 = true ∧
  ∀ name,
    Commander.commands (Commander.deregisterCommand this config).2 !! name
    = if decide (name ∈ commandNames config) then None
      else Commander.commands this !! name.
Proof.
  intros Hd. unfold Commander.deregisterCommand, commandNames. rewrite Hd.
  cbn [fst snd Commander.commands]. split; [reflexivity|]. intros name.
  destruct (Commander.aliases config) as [l|]; cbn [default].
  - rewrite lookup_foldl_delete.
    destruct (decide (name ∈ l)) as [Hl|Hl].
    + rewrite decide_True by names_solver. reflexivity.
    + destruct (decide (name = Commander.identifier config)) as [->|Hne].
      * rewrite lookup_delete_eq, decide_True by names_solver. reflexivity.
      * rewrite lookup_delete_ne by congruence.
        rewrite decide_False by names_solver. reflexivity.
  - destruct (decide (name = Commander.identifier config)) as [->|Hne].
    + rewrite lookup_delete_eq, decide_True by names_solver. reflexivity.
    + rewrite lookup_delete_ne by congruence.
      rewrite decide_False by names_solver. reflexivity.
Qed.

(** X12: after [registerCommand] the identifier and every alias of the
    config lead to the new descriptor, whatever they led to before; its
    config is the given one after the defaulter, if there is one; every other
    name leads where it led before. *)
Theorem register_lookup this config executor name :
  Commander.getDescriptor (Commander.registerCommand this config executor) name
  = if decide (name ∈ commandNames config)
    then Some {| Commander.config :=
                   match Commander.defaulter this with
                   | Some d => d config
                   | None => config
                   end;
                 Commander.executor := executor |}
    else Commander.getDescriptor this name.
Proof. apply registerCommand_lookup. Qed.

(** X13: [deregisterCommand] answers [false] and changes nothing when the
    identifier of the config leads nowhere; otherwise it answers [true] and
    afterwards the identifier and every alias listed in the config lead
    nowhere, also an alias that led to another command, and every other name
    leads where it led before. *)
Theorem deregister_lookup this config :
  match Commander.getDescriptor this (Commander.identifier config) with
  | None => Commander.deregisterCommand this config = (false, this)
  | Some _ =>
      (Commander.deregisterCommand this config).1 = true ∧
      ∀ name,
        Commander.getDescriptor (Commander.deregisterCommand this config).2 name
        = if decide (name ∈ commandNames config) then None
          else Commander.getDescriptor this name
  end.
Proof.
  unfold Commander.getDescriptor.
  destruct (Commander.commands this !! Commander.identifier config) as [d|] eqn:Hd.
  - apply (deregisterCommand_found this config d Hd).
  - unfold Commander.deregisterCommand. rewrite Hd. reflexivity.
Qed.

(** X14: registering a command under names that lead nowhere and then
    deregistering it with the same config gives the commander back as it
    was. *)
Theorem register_deregister this config executor :
  (∀ name, name ∈ commandNames config → Commander.getDescriptor this name = None) →
  Commander.deregisterCommand (Commander.registerCommand this config executor) config
  = (true, this).
Proof.
  intros Hfree. unfold Commander.getDescriptor in Hfree.
  pose proof (registerCommand_lookup this config executor
                (Commander.identifier config)) as Hid.
  rewrite decide_True in Hid by (unfold commandNames; names_solver).
  destruct (deregisterCommand_found _ config _ Hid) as [Htrue Hlook].
  rewrite (surjective_pairing (Commander.deregisterCommand _ config)), Htrue.
  f_equal.
  assert (Commander.commands
            (Commander.deregisterCommand
               (Commander.registerCommand this config executor) config).2
          = Commander.commands this) as Hcommands.
  { apply map_eq. intros name. rewrite Hlook, registerCommand_lookup.
    destruct (decide (name ∈ commandNames config)) as [Hin|Hin]; [|reflexivity].
    symmetry. apply Hfree. exact Hin. }
  revert Hcommands. unfold Commander.deregisterCommand. rewrite Hid.
  cbn [snd Commander.commands Commander.defaulter Commander.commandHook
       Commander.canExecute Commander.registerCommand].
  intros ->. destruct this. reflexivity.
Qed.

(** *** Dispatch *)

Lemma execute_outcome this sender command args usedAlias σ :
  if Commander.canExecute this sender command
  then (Commander.execute this sender command args usedAlias σ).1.1 = EXECUTED
  else Commander.execute this sender command args usedAlias σ
       = ((NO_PERMISSION, []), σ).
Proof.
  unfold Commander.execute.
  destruct (Commander.canExecute this sender command); [|reflexivity].
  cbn [negb]. unfold bind.
  destruct (ArgumentParser.new (Some args) σ) as [parser σ1].
  destruct (Commander.runExecutor _ _ σ1) as [promise σ2].
  destruct (Commander.thenHook _ _ _ promise σ2) as [later σ3].
  reflexivity.
Qed.

(** X15: a dispatch by name or by config answers [NOT_FOUND] when the name
    leads nowhere; a dispatch that finds its descriptor, or is given one,
    answers [NO_PERMISSION] when [canExecute] says no and [EXECUTED]
    otherwise.  With [NOT_FOUND] and [NO_PERMISSION] the store is as before
    and nothing is observed: the handler does not run. *)
Theorem dispatch_outcome this sender name config descriptor args σ :
  let found (d : Commander.CommandDescriptor)
        (r : ExecutionResult * list Commander.observed * Store) :=
    if Commander.canExecute this sender d then r.1.1 = EXECUTED
    else r = ((NO_PERMISSION, []), σ) in
  match Commander.getDescriptor this name with
  | None => Commander.executeName this sender name args σ = ((NOT_FOUND, []), σ)
  | Some d => found d (Commander.executeName this sender name args σ)
  end ∧
  match Commander.getDescriptor this (Commander.identifier config) with
  | None => Commander.executeConfig this sender config args σ = ((NOT_FOUND, []), σ)
  | Some d => found d (Commander.executeConfig this sender config args σ)
  end ∧
  found descriptor (Commander.executeDescriptor this sender descriptor args σ).
Proof.
  intros found. subst found. cbn beta.
  unfold Commander.getDescriptor, Commander.executeName, Commander.executeConfig,
    Commander.executeDescriptor.
  split; [|split].
  - destruct (Commander.commands this !! name) as [d|]; [|reflexivity].
    apply execute_outcome.
  - destruct (Commander.commands this !! Commander.identifier config) as [d|];
      [|reflexivity].
    apply execute_outcome.
  - apply execute_outcome.
Qed.

(** X16: when the sender may execute the command and the handler returns,
    the caller gets [EXECUTED] and the hook, if there is one, is called once,
    with the command, with the sender, the parser made for this execution
    and the name that was used, and with [false] exactly when the handler
    returned [false]: any other returned value counts as a success. *)
Theorem returning_handler_reaches_hook this sender command args usedAlias σ
    parser σ1 v σ2 :
  Commander.canExecute this sender command = true →
  ArgumentParser.new (Some args) σ = (parser, σ1) →
  Commander.invoke (Commander.executor command) (sender, parser, usedAlias) σ1
    = (Commander.Normal v, σ2) →
  (Commander.execute this sender command args usedAlias σ).1
  = (EXECUTED,
     match Commander.commandHook this with
     | Some _ =>
         [Commander.HookCalled command
            (Commander.VBoolean (Commander.isnt_false v))
            (sender, parser, usedAlias)]
     | None => []
     end) ∧
  (Commander.isnt_false v = false ↔ v = Commander.VBoolean false).
Proof.
  intros Hcan Hnew Hinvoke. split.
  - unfold Commander.execute. rewrite Hcan. cbn [negb]. unfold bind at 1.
    rewrite Hnew. unfold bind at 1.
    rewrite (runExecutor_return _ _ _ _ _ Hinvoke).
    unfold Commander.thenHook, bind, ret.
    destruct (Commander.commandHook this) as [hook|]; [|reflexivity].
    destruct (hook _ _ _ σ2). reflexivity.
  - destruct v as [|[|]| |]; simpl; split; congruence.
Qed.

End CommanderFacts.

Section CommandParserFacts.

Implicit Types (Strings : CommandParser.StringsLib) (this : CommandParser.t).

(** *** Splitting *)

Lemma split_pieces sep s : ∃ piece pieces, CommandParser.split sep s = piece :: pieces.
Proof.
  induction s as [|c s (piece & pieces & IH)]; simpl; [eauto|].
  destruct (Ascii.eqb c sep); [eauto|]. rewrite IH. eauto.
Qed.

Lemma split_concat sep s :
  String.concat (String sep EmptyString) (CommandParser.split sep s) = s.
Proof.
  induction s as [|c s IH]; [reflexivity|]. simpl.
  destruct (split_pieces sep s) as (piece & pieces & Hs). rewrite Hs in IH |- *.
  destruct (Ascii.eqb c sep) eqn:Hc.
  - apply Ascii.eqb_eq in Hc as ->.
    destruct pieces as [|piece' pieces]; rewrite <- IH; reflexivity.
  - destruct pieces as [|piece' pieces]; rewrite <- IH; reflexivity.
Qed.

Lemma split_no_sep sep s :
  Forall (λ piece, occurs sep piece = false) (CommandParser.split sep s).
Proof.
  induction s as [|c s IH]; simpl; [repeat constructor|].
  destruct (Ascii.eqb c sep) eqn:Hc; [constructor; [reflexivity|exact IH]|].
  destruct (CommandParser.split sep s) as [|piece pieces]; [repeat constructor; simpl; rewrite Hc; reflexivity|].
  inversion IH as [|? ? Hpiece Hpieces]; subst.
  constructor; [|exact Hpieces]. simpl. rewrite Hc, Hpiece. reflexivity.
Qed.

(** X17: what [disect] returns holds the input as it was given, a name that
    is not empty, and a name and arguments without spaces that, joined by
    single spaces, give back what follows the prefix in the trimmed input;
    it returns something only for an input that is not empty and whose
    trimmed form starts with the prefix. *)
Theorem disect_result Strings this input r :
  CommandParser.disect Strings this input = Some r →
  CommandParser.input r = input ∧
  input ≠ EmptyString ∧
  CommandParser.startsWith Strings (CommandParser.trim Strings input)
    (CommandParser.prefix this) = true ∧
  CommandParser.name r ≠ EmptyString ∧
  occurs CommandParser.space (CommandParser.name r) = false ∧
  Forall (λ a, occurs CommandParser.space a = false) (CommandParser.args r) ∧
  String.concat " " (CommandParser.name r :: CommandParser.args r)
  = CommandParser.slice Strings (CommandParser.trim Strings input)
      (String.length (CommandParser.prefix this) + 1).
Proof.
  unfold CommandParser.disect.
  destruct input as [|c input']; [discriminate|]. cbn [CommandParser.falsy].
  set (input := String c input').
  destruct (CommandParser.falsy (CommandParser.trim Strings input)); [discriminate|].
  cbn [orb].
  destruct (CommandParser.startsWith Strings _ _) eqn:Hprefix; [|discriminate].
  cbn [negb].
  destruct (CommandParser.falsy (CommandParser.slice Strings _ _)); [discriminate|].
  pose proof (split_concat CommandParser.space
                (CommandParser.slice Strings (CommandParser.trim Strings input)
                   (String.length (CommandParser.prefix this) + 1))) as Hjoin.
  pose proof (split_no_sep CommandParser.space
                (CommandParser.slice Strings (CommandParser.trim Strings input)
                   (String.length (CommandParser.prefix this) + 1))) as Hclean.
  destruct (CommandParser.split _ _) as [|name args]; [discriminate|].
  cbn [head tail].
  destruct name as [|c' name']; [discriminate|]. cbn [CommandParser.falsy].
  intros [= <-]. cbn [CommandParser.input CommandParser.name CommandParser.args].
  inversion Hclean as [|? ? Hname Hargs]; subst.
  repeat split; auto; discriminate.
Qed.

(** X18: when what follows the prefix starts with a space, [disect] returns
    nothing, whatever comes after the space. *)
Theorem disect_blank_name Strings this input rest :
  CommandParser.slice Strings (CommandParser.trim Strings input)
    (String.length (CommandParser.prefix this) + 1)
  = String CommandParser.space rest →
  CommandParser.disect Strings this input = None.
Proof.
  intros Hslice. unfold CommandParser.disect.
  destruct (CommandParser.falsy input); [reflexivity|].
  destruct (_ || _); [reflexivity|].
  rewrite Hslice. reflexivity.
Qed.

End CommandParserFacts.

(** ** The statements at concrete inputs *)

(** A required step that misses after an earlier step has filled its slot,
    with a step and a token still to come: ["red"] is taken as the colour,
    ["x"] is no size, and the shade step and the token ["dark"] are not
    reached. *)
Lemma required_miss_stops_witness :
  In (ECall 1 1) (compile colourSizeShade ["red"; "x"; "dark"]).2 ∧
  (∀ p, p ∈ [wordParser "large" 3] → parse p "x" = None) ∧
  (compile colourSizeShade ["red"; "x"; "dark"]).1
  = [Option_some 1; Option_none; Option_none] ∧
  ∃ pre tried filled,
    filled = replay pre (nones (length (steps colourSizeShade))) ∧
    tried = asked 1 0 "x" [wordParser "large" 3] 1 ∧
    (∀ a b, In (ECall a b) pre → a < 1 ∧ b ≤ 1) ∧
    parseFrom colourSizeShade ["red"; "x"; "dark"] 1 1 filled
    = (filled, ECall 1 1 :: tried) ∧
    compile colourSizeShade ["red"; "x"; "dark"]
    = (filled, pre ++ ECall 1 1 :: tried) ∧
    count is_call tried = 0 ∧
    (∀ a b c, In (EParse a b c) tried → a = 1 ∧ c = "x") ∧
    (∀ i, 1 ≤ i → i < length (steps colourSizeShade) →
          filled !! i = Some Option_none) ∧
    (∀ a b, In (ECall a b) (compile colourSizeShade ["red"; "x"; "dark"]).2 → b ≤ 1).
Proof.
  assert (∀ p, p ∈ [wordParser "large" 3] → parse p "x" = None) as Hmiss.
  { intros p Hp. apply list_elem_of_singleton in Hp as ->. reflexivity. }
  split; [vm_compute; right; right; right; left; reflexivity|].
  split; [exact Hmiss|]. split; [reflexivity|].
  apply (required_miss_stops colourSizeShade ["red"; "x"; "dark"] 1 1
           {| parsers := [wordParser "large" 3]; required := true |} "x").
  - vm_compute. right; right; right; left; reflexivity.
  - reflexivity.
  - reflexivity.
  - reflexivity.
  - exact Hmiss.
Defined.

(** An optional step that misses: ["large"] is no colour, and is offered to
    the size step next. *)
Lemma optional_miss_keeps_token_witness :
  In (ECall 0 0) (compile colourThenSize ["large"]).2 ∧
  (∀ p, p ∈ [wordParser "red" 1] → parse p "large" = None) ∧
  ∃ pre tried options post,
    compile colourThenSize ["large"] =
      after (pre ++ ECall 0 0 :: tried) (parseFrom colourThenSize ["large"] 1 0 options) ∧
    (parseFrom colourThenSize ["large"] 1 0 options).2 = ECall 1 0 :: post ∧
    count is_call tried = 0 ∧
    (∀ step' p ps,
       steps colourThenSize !! 1 = Some step' → parsers step' = p :: ps →
       ∃ post', post = EParse 1 0 "large" :: post').
Proof.
  assert (∀ p, p ∈ [wordParser "red" 1] → parse p "large" = None) as Hmiss.
  { intros p Hp. apply list_elem_of_singleton in Hp as ->. reflexivity. }
  split; [vm_compute; left; reflexivity|]. split; [exact Hmiss|].
  apply (optional_miss_keeps_token colourThenSize ["large"] 0 0
           {| parsers := [wordParser "red" 1]; required := false |} "large").
  - vm_compute. left. reflexivity.
  - reflexivity.
  - reflexivity.
  - reflexivity.
  - exact Hmiss.
Defined.

(** A step added with a false condition and [required = true], followed by a
    required size step: the token goes to the size step. *)
Lemma thenIf_false_step_witness :
  let this :=
    then_ (thenIf blank false (Single (wordParser "red" 1)) true)
      (Single (wordParser "large" 3)) true in
  (compile this ["large"]).1 = [Option_none; Option_some 3] ∧
  In (ECall 0 0) (compile this ["large"]).2 ∧
  (compile this ["large"]).1 !! 0 = Some Option_none ∧
  ∃ pre post, (compile this ["large"]).2 = pre ++ ECall 0 0 :: ECall 1 0 :: post.
Proof.
  intros this.
  destruct (thenIf_false_step blank (Single (wordParser "red" 1)) true)
    as (_ & _ & H).
  destruct (H this [{| parsers := [wordParser "large" 3]; required := true |}]
              ["large"] eq_refl) as (Hslot & _ & _ & Hnext).
  split; [reflexivity|].
  split; [vm_compute; left; reflexivity|].
  split; [exact Hslot|].
  apply (Hnext 0).
  - vm_compute. left. reflexivity.
  - simpl. lia.
Defined.

(** The second and the third alternative both accept ["large"]: only the
    slot of the second is filled, and the third is not asked. *)
Lemma parseAny_first_success_witness :
  parse (wordParser "large" 4) "large" = Some 4 ∧
  ArgumentParser.parseAny (Some "large") alternatives
  = ([Option_none; Option_some 3; Option_none],
     [EParse 0 0 "large"; EParse 0 1 "large"; ESet 1 (Some 3)]).
Proof.
  split; [reflexivity|].
  destruct (parseAny_first_success alternatives) as (_ & H & _).
  apply (H "large" 1 (wordParser "large" 3) 3).
  - reflexivity.
  - reflexivity.
  - intros [|n'] p' Hn' Hp'; [|lia].
    injection Hp' as <-. reflexivity.
Defined.

(** A parser over its own array at location [1]: taking from it leaves the
    array at location [0] alone. *)
Lemma takers_touch_own_buffer_only_witness :
  let σ := [["kick"; "bob"]; ["kick"; "bob"]] in
  let this := {| ArgumentParser.args := 1 |} in
  deref (ArgumentParser.take (V:=nat) ArgumentParser.Shift this [] σ) 0 = ["kick"; "bob"] ∧
  deref (ArgumentParser.take (V:=nat) ArgumentParser.Shift this [] σ) 1 = ["bob"] ∧
  deref (ArgumentParser.new (Some 0) [["kick"; "bob"]]).2 0 = ["kick"; "bob"].
Proof.
  intros σ this.
  destruct (takers_touch_own_buffer_only (V:=nat) ArgumentParser.Shift this [] σ)
    as (Hframe & _ & _ & Hnew).
  split; [|split].
  - rewrite (Hframe 0); [reflexivity|]. simpl. lia.
  - reflexivity.
  - destruct (Hnew 0 [["kick"; "bob"]]) as (_ & _ & Hold).
    rewrite (Hold 0); [reflexivity|]. simpl. lia.
Defined.

(** C5, as stated, fails: one token and three optional steps that all miss
    give three frames under the first one, more than the one token. *)
Lemma depth_exceeds_token_count :
  ¬ depth (compile threeOptional ["x"]).2
    ≤ Nat.min (length ["x"]) (length (steps threeOptional)).
Proof. vm_compute. lia. Qed.

(** C6, as stated, fails: the descriptor made by [describe] follows the
    buffer of the parser, so taking a token from the parser changes the
    tokens that its [compile] uses by default. *)
Lemma describe_shares_buffer :
  let made := ArgumentParser.new (Some 0) [["kick"; "bob"]] in
  let described := ArgumentParser.describe (V:=nat) made.1 made.2 in
  let σ := described.2 in
  let σ' := ArgumentParser.take (V:=nat) ArgumentParser.Shift made.1 [] σ in
  defaultTokens described.1 σ = ["kick"; "bob"] ∧
  defaultTokens described.1 σ' = ["bob"] ∧
  defaultTokens described.1 σ' ≠ defaultTokens described.1 σ.
Proof. vm_compute. repeat split; discriminate. Qed.

(** C8, as stated, fails: the first alternative misses and the second hits,
    and [set] is called after each of them on the one slot. *)
Lemma set_called_per_parser :
  ¬ count (is_set_on 0) (compile twoAlternatives ["large"]).2 ≤ 1.
Proof. vm_compute. lia. Qed.

(** The size found in slot [1] comes from the token at position [0]. *)
Lemma filled_slot_origin_witness :
  (compile colourThenSize ["large"]).1 !! 1 = Some (Option_some 3) ∧
  ∃ st j tok,
    steps colourThenSize !! 1 = Some st ∧ ["large"] !! j = Some tok ∧ j ≤ 1 ∧
    firstValue (parsers st) tok = Some 3.
Proof.
  split; [reflexivity|].
  apply (filled_slot_origin colourThenSize ["large"] 1 3). reflexivity.
Defined.

(** A colour and a size, in this order: both steps hit. *)
Lemma all_steps_hit_witness :
  (compile colourThenSize ["red"; "large"]).1 = [Option_some 1; Option_some 3].
Proof.
  rewrite (all_steps_hit colourThenSize ["red"; "large"]); [reflexivity|].
  intros [|[|i]] st Hst; simpl in Hst; try discriminate;
    injection Hst as <-; eexists; (split; [reflexivity|]); eexists; reflexivity.
Defined.

(** The second alternative is the first to accept ["large"]. *)
Lemma hit_takes_token_witness :
  In (ECall 0 0) (compile twoAlternatives ["large"]).2 ∧
  ∃ pre options post,
    compile twoAlternatives ["large"] =
      after (pre ++ ECall 0 0 ::
               flat_map (λ x, [EParse 0 x "large"; ESet 0 None]) (seq 0 1)
               ++ [EParse 0 1 "large"; ESet 0 (Some 3)])
        (parseFrom twoAlternatives ["large"] 1 1 options) ∧
    (parseFrom twoAlternatives ["large"] 1 1 options).2 = ECall 1 1 :: post ∧
    (compile twoAlternatives ["large"]).1 !! 0 = Some (Option_some 3).
Proof.
  split; [vm_compute; left; reflexivity|].
  apply (hit_takes_token twoAlternatives ["large"] 0 0
           {| parsers := [wordParser "red" 1; wordParser "large" 3];
              required := false |}
           "large" 1 (wordParser "large" 3) 3).
  - vm_compute. left. reflexivity.
  - reflexivity.
  - reflexivity.
  - reflexivity.
  - reflexivity.
  - intros [|n'] p' Hn' Hp'; [|lia]. injection Hp' as <-. reflexivity.
Defined.

(** One token for one step: the frame after the hit finds no token. *)
Lemma tokens_run_out_witness :
  In (ECall 1 1) (compile oneRequired ["5"]).2 ∧
  ∃ pre slots,
    compile oneRequired ["5"] = (slots, pre ++ [ECall 1 1]) ∧
    ∀ i, 1 ≤ i → i < length (steps oneRequired) → slots !! i = Some Option_none.
Proof.
  split; [vm_compute; right; right; right; left; reflexivity|].
  destruct (tokens_run_out oneRequired ["5"]) as [_ H].
  apply (H 1 1).
  - vm_compute. right; right; right; left; reflexivity.
  - simpl. lia.
Defined.

(** First-match mode on the three alternatives: the second one answers. *)
Lemma parse_first_match_witness :
  ArgumentParser.parse (Some "large") alternatives
  = (Some 3, [EParse 0 0 "large"; EParse 0 1 "large"]).
Proof.
  destruct (parse_first_match alternatives) as (_ & _ & H & _).
  apply (H "large" 1 (wordParser "large" 3) 3).
  - reflexivity.
  - reflexivity.
  - intros [|n'] p' Hn' Hp'; [|lia]. injection Hp' as <-. reflexivity.
Defined.

(** [shiftIf] with a parser that accepts the front token. *)
Lemma conditional_take_reports_witness :
  let this := {| ArgumentParser.args := 0 |} in
  let σ := [["large"; "bob"]] in
  is_Some (ArgumentParser.shiftIf this alternatives σ).1.1 ∧
  length (ArgumentParser.buffer this (ArgumentParser.shiftIf this alternatives σ).2)
  < length (ArgumentParser.buffer this σ).
Proof.
  intros this σ.
  destruct (conditional_take_reports this alternatives σ) as [[H _] _].
  assert (is_Some (ArgumentParser.shiftIf this alternatives σ).1.1) as Hsome
    by (vm_compute; eauto).
  split; [exact Hsome | exact (H Hsome)].
Defined.

(** Two parsers over the array at location [0]. *)
Lemma parsers_are_independent_witness :
  let σ0 := [["kick"; "bob"]] in
  let made1 := ArgumentParser.new (Some 0) σ0 in
  let made2 := ArgumentParser.new (Some 0) made1.2 in
  let σ := ArgumentParser.take (V:=nat) ArgumentParser.Shift made1.1 [] made2.2 in
  ArgumentParser.buffer made1.1 σ = ["bob"] ∧
  ArgumentParser.buffer made1.1 made2.2 = ["kick"; "bob"] ∧
  ArgumentParser.buffer made2.1 σ = ["kick"; "bob"] ∧
  deref σ 0 = ["kick"; "bob"].
Proof.
  intros σ0 made1 made2 σ. split; [reflexivity|].
  apply (parsers_are_independent (V:=nat) ArgumentParser.Shift [] 0 σ0).
  simpl. lia.
Defined.

(** Registering and deregistering "hurt" on a commander without commands. *)
Lemma register_deregister_witness :
  Commander.deregisterCommand (Commander.registerCommand hooked hurt declining) hurt
  = (true, hooked).
Proof.
  apply (register_deregister hooked hurt declining).
  intros name _. apply lookup_empty.
Defined.

(** The handler that returns [false], run under the alias "dmg". *)
Lemma returning_handler_reaches_hook_witness :
  let command := registered hooked hurt declining in
  (Commander.execute hooked 1 command 0 "dmg" [["bob"]]).1
  = (EXECUTED,
     [Commander.HookCalled command (Commander.VBoolean false)
        (1, {| ArgumentParser.args := 2 |}, "dmg")]).
Proof.
  intros command.
  destruct (returning_handler_reaches_hook hooked 1 command 0 "dmg" [["bob"]]
              {| ArgumentParser.args := 2 |} [["bob"]; []; ["bob"]]
              (Commander.VBoolean false) [["bob"]; []; ["bob"]])
    as [H _]; [reflexivity | reflexivity | reflexivity |].
  exact H.
Defined.

(** A command line with two arguments. *)
Lemma disect_result_witness :
  CommandParser.disect plainStrings bang "!kick bob now"
  = Some {| CommandParser.name := "kick"; CommandParser.args := ["bob"; "now"];
            CommandParser.input := "!kick bob now" |} ∧
  String.concat " " ("kick" :: ["bob"; "now"]) = "kick bob now".
Proof.
  assert (CommandParser.disect plainStrings bang "!kick bob now"
          = Some {| CommandParser.name := "kick"; CommandParser.args := ["bob"; "now"];
                    CommandParser.input := "!kick bob now" |}) as Hr by reflexivity.
  split; [exact Hr|].
  destruct (disect_result plainStrings bang _ _ Hr) as (_ & _ & _ & _ & _ & _ & H).
  exact H.
Defined.

(** A space between the prefix and the name. *)
Lemma disect_blank_name_witness :
  CommandParser.disect plainStrings bang "! kick" = None.
Proof.
  apply (disect_blank_name plainStrings bang "! kick" "kick"). reflexivity.
Defined.
